(** * SICS (Searchlight Inefficient Compression Scheme)

    A shallow embedding of [Compression_Decompression.py] and the
    verification of its codec core: frequency counting, rank sorting, the
    code generator, mapping construction, compression and decompression.

    Modelling conventions.
    - A Python character is its Unicode code point, a number of type [N];
      a Python [str] is the list of its characters.
    - A Python [dict] is an association list in insertion order: assigning
      to a key that is present replaces its value in place, assigning to a
      new key appends the entry.  [dict.items()] iterates in that order.
    - Python integers are unbounded: counts are in [Z].
    - Code that can raise runs in the [outcome] monad.  The [while] loops of
      [DecompressText] are iterated with fuel; running out of fuel is a
      third outcome, shown below never to happen. *)

From Stdlib Require Import List Arith ZArith NArith Lia Bool.
From Stdlib Require Import Ascii.
From Stdlib Require String.
Import String.StringSyntax.
Delimit Scope string_scope with string.
From Stdlib Require Import Permutation Sorted.
Import ListNotations.

Set Implicit Arguments.

(* ================================================================== *)
(** ** Characters and strings *)

Definition char := N.
Definition str := list char.

Definition ord (a : ascii) : char := N_of_ascii a.
Arguments ord a%_char.

(** [py "F0"] is the Python string literal ['F0']. *)
Definition py (s : String.string) : str :=
  map ord (String.list_ascii_of_string s).
Arguments py s%_string.

Definition chr_F : char := ord "F".
Definition chr_qmark : char := ord "?".

Definition str_eqb (a b : str) : bool :=
  if list_eq_dec N.eq_dec a b then true else false.

(* ================================================================== *)
(** ** Outcomes of Python code *)

Inductive exn : Type :=
| KeyError (key : char)
| IndexError.

(** [KeyError] and [IndexError] are the two subclasses of [LookupError]. *)
Definition is_LookupError (e : exn) : bool :=
  match e with
  | KeyError _ => true
  | IndexError => true
  end.

Inductive outcome (A : Type) : Type :=
| Returned (a : A)
| Raised (e : exn)
| OutOfFuel.

Arguments Returned {A} a.
Arguments Raised {A} e.
Arguments OutOfFuel {A}.

Definition bind {A B} (m : outcome A) (k : A -> outcome B) : outcome B :=
  match m with
  | Returned a => k a
  | Raised e => Raised e
  | OutOfFuel => OutOfFuel
  end.

Notation "x <- m ;; k" := (bind m (fun x => k))
  (at level 61, m at next level, right associativity).
Notation "' pat <- m ;; k" := (bind m (fun x => match x with pat => k end))
  (at level 61, pat pattern, m at next level, right associativity).

(** [while cond: body], iterated at most [fuel - 1] times. *)
Fixpoint while_loop {S : Type} (fuel : nat) (cond : S -> outcome bool)
    (body : S -> outcome S) (s : S) : outcome S :=
  match fuel with
  | O => OutOfFuel
  | Datatypes.S fuel' =>
      b <- cond s ;;
      if (b : bool) then s' <- body s ;; while_loop fuel' cond body s'
      else Returned s
  end.

(** [s[i]] for a non-negative index. *)
Definition str_index (s : str) (i : nat) : outcome char :=
  match nth_error s i with
  | Some c => Returned c
  | None => Raised IndexError
  end.

(** [s[start:stop]] for non-negative bounds; slicing clamps, it never raises. *)
Definition str_slice (s : str) (start stop : nat) : str :=
  firstn (stop - start) (skipn start s).

(* ================================================================== *)
(** ** Dictionaries *)

Section Dict.
Variables K V : Type.
Variable eqb : K -> K -> bool.

Definition dict := list (K * V).

(** [d.get(k)] *)
Fixpoint dict_get (d : dict) (k : K) : option V :=
  match d with
  | [] => None
  | (k', v) :: d' => if eqb k k' then Some v else dict_get d' k
  end.

(** [d.get(k, default)] *)
Definition dict_get_default (d : dict) (k : K) (default : V) : V :=
  match dict_get d k with
  | Some v => v
  | None => default
  end.

(** [d[k] = v] *)
Fixpoint dict_set (d : dict) (k : K) (v : V) : dict :=
  match d with
  | [] => [(k, v)]
  | (k', v') :: d' =>
      if eqb k k' then (k', v) :: d' else (k', v') :: dict_set d' k v
  end.

Definition dict_keys (d : dict) : list K := map fst d.
Definition dict_values (d : dict) : list V := map snd d.

(** The keys of a dictionary are pairwise different. *)
Definition dict_wf (d : dict) : Prop := NoDup (dict_keys d).
End Dict.

Arguments dict_get {K V} eqb d k.
Arguments dict_get_default {K V} eqb d k default.
Arguments dict_set {K V} eqb d k v.
Arguments dict_keys {K V} d.
Arguments dict_values {K V} d.
Arguments dict_wf {K V} d.

(* ================================================================== *)
(** ** CountFrequencies *)

(** One iteration of [for ch in text]. *)
Definition count_step (freqs : dict char Z) (ch : char) : dict char Z :=
  match dict_get N.eqb freqs ch with
  | Some c => dict_set N.eqb freqs ch (c + 1)%Z     (* freqs[ch] += 1 *)
  | None => dict_set N.eqb freqs ch 1%Z             (* freqs[ch] = 1 *)
  end.

Definition CountFrequencies (text : str) : dict char Z :=
  fold_left count_step text [].

(* ================================================================== *)
(** ** SortCharacters *)

(** [SortKey(pair)]: the tuple [(-count, char)]. *)
Definition SortKey (pair : char * Z) : Z * char := ((- snd pair)%Z, fst pair).

(** Python's order on the tuples [(int, str)]: lexicographic. *)
Definition key_ltb (a b : Z * char) : bool :=
  ((fst a <? fst b)%Z || ((fst a =? fst b)%Z && (snd a <? snd b)%N))%bool.

(** [list.sort(key=...)] is a stable sort; a stable sort has one possible
    result, computed here by insertion.  Items are inserted from the last
    to the first, each one behind the items of smaller key only, so items
    of equal keys keep the order they had. *)
Fixpoint sort_insert {A} (key : A -> Z * char) (x : A) (l : list A) : list A :=
  match l with
  | [] => [x]
  | y :: l' =>
      if key_ltb (key y) (key x) then y :: sort_insert key x l'
      else x :: y :: l'
  end.

Definition list_sort {A} (key : A -> Z * char) (l : list A) : list A :=
  fold_right (sort_insert key) [] l.

Definition SortCharacters (freqs : dict char Z) : list char :=
  let items := freqs in
  let items := list_sort SortKey items in
  map fst items.

(* ================================================================== *)
(** ** GenerateCodes *)

Definition hex_digit (n : nat) : char :=
  if n <? 10 then (ord "0" + N.of_nat n)%N
  else (ord "A" + N.of_nat (n - 10))%N.

Fixpoint format_X_aux (fuel n : nat) (acc : str) : str :=
  match fuel with
  | O => hex_digit n :: acc
  | S fuel' =>
      if n <? 16 then hex_digit n :: acc
      else format_X_aux fuel' (n / 16) (hex_digit (n mod 16) :: acc)
  end.

(** [format(number, 'X')]: upper-case hexadecimal, no prefix. *)
Definition format_X (number : nat) : str := format_X_aux number number [].

(** The generator's suspended state: not yet started, suspended at the
    [yield] of the first [for] loop, or at the [yield] inside [while True]. *)
Inductive gen_state : Type :=
| GenStart
| GenSingle (number : nat)
| GenMulti (prefix : str) (number : nat).

(** [next(code_gen)]: run to the next [yield]. *)
Definition gen_next (g : gen_state) : str * gen_state :=
  match g with
  | GenStart => (format_X 0, GenSingle 0)
  | GenSingle number =>
      if S number <? 15 then (format_X (S number), GenSingle (S number))
      else
        let prefix := py "F" in
        (prefix ++ format_X 0, GenMulti prefix 0)
  | GenMulti prefix number =>
      if S number <? 15 then
        (prefix ++ format_X (S number), GenMulti prefix (S number))
      else
        let prefix := prefix ++ py "F" in
        (prefix ++ format_X 0, GenMulti prefix 0)
  end.

Definition GenerateCodes : gen_state := GenStart.

(** The first [n] codes of a generator. *)
Fixpoint gen_take (n : nat) (g : gen_state) : list str :=
  match n with
  | O => []
  | S n' => let (code, g') := gen_next g in code :: gen_take n' g'
  end.

(* ================================================================== *)
(** ** BuildMapping *)

Definition build_step (st : dict char str * gen_state) (ch : char)
    : dict char str * gen_state :=
  let (mapping, code_gen) := st in
  let (code, code_gen') := gen_next code_gen in
  (dict_set N.eqb mapping ch code, code_gen').

Definition BuildMapping (sorted_chars : list char) : dict char str :=
  fst (fold_left build_step sorted_chars ([], GenerateCodes)).

(* ================================================================== *)
(** ** CompressText *)

(** [mapping[ch]] *)
Definition mapping_getitem (mapping : dict char str) (ch : char) : outcome str :=
  match dict_get N.eqb mapping ch with
  | Some code => Returned code
  | None => Raised (KeyError ch)
  end.

Fixpoint compress_loop (text : str) (mapping : dict char str)
    (parts : list str) : outcome (list str) :=
  match text with
  | [] => Returned parts
  | ch :: text' =>
      code <- mapping_getitem mapping ch ;;
      compress_loop text' mapping (parts ++ [code])
  end.

Definition CompressText (text : str) (mapping : dict char str) : outcome str :=
  parts <- compress_loop text mapping [] ;;
  Returned (concat parts).

(* ================================================================== *)
(** ** DecompressText *)

(** [for ch, code in mapping.items(): inverse_map[code] = ch] *)
Definition build_inverse (mapping : dict char str) : dict str char :=
  fold_left (fun inverse_map item => dict_set str_eqb inverse_map (snd item) (fst item))
            mapping [].

Section Decompress.
Variable fuel : nat.
Variable compressed : str.
Variable inverse_map : dict str char.

Let length := List.length compressed.

(** [while i < length and compressed[i] == 'F': i += 1] *)
Definition skip_F_run (i : nat) : outcome nat :=
  while_loop fuel
    (fun i =>
       if i <? length then c <- str_index compressed i ;; Returned (c =? chr_F)%N
       else Returned false)
    (fun i => Returned (i + 1))
    i.

(** The part of the loop body that extracts [key] and moves [i]. *)
Definition extract_key (i : nat) : outcome (str * nat) :=
  c <- str_index compressed i ;;
  if negb (c =? chr_F)%N then
    key <- str_index compressed i ;;
    Returned ([key], i + 1)
  else
    let start := i in
    i <- skip_F_run i ;;
    let i := if i <? length then i + 1 else i in
    Returned (str_slice compressed start i, i).

(** One iteration of the outer loop. *)
Definition decompress_body (st : nat * list char) : outcome (nat * list char) :=
  let (i, result) := st in
  '(key, i) <- extract_key i ;;
  Returned (i, result ++ [dict_get_default str_eqb inverse_map key chr_qmark]).

Definition decompress_loop (st : nat * list char) : outcome (nat * list char) :=
  while_loop fuel (fun st => Returned (fst st <? length)) decompress_body st.
End Decompress.

Definition DecompressText_fuel (fuel : nat) (compressed : str)
    (mapping : dict char str) : outcome str :=
  let inverse_map := build_inverse mapping in
  '(_, result) <- decompress_loop fuel compressed inverse_map (0, []) ;;
  Returned result.

(** Each iteration of either loop moves [i] forward by at least one, so
    [len(compressed) + 1] units of fuel are enough (theorem
    [DecompressText_fuel_enough]). *)
Definition DecompressText (compressed : str) (mapping : dict char str)
    : outcome str :=
  DecompressText_fuel (S (List.length compressed)) compressed mapping.

(* ================================================================== *)
(** ** Vocabulary of the specification *)

(** The [i]-th code the generator yields, counting from 0. *)
Definition nth_code (i : nat) : str :=
  fst (gen_next (Nat.iter i (fun g => snd (gen_next g)) GenerateCodes)).

(** A terminal symbol, [[0-9A-E]]. *)
Definition is_terminal (c : char) : bool :=
  (((ord "0" <=? c) && (c <=? ord "9")) || ((ord "A" <=? c) && (c <=? ord "E")))%N%bool.

(** [F*[0-9A-E]] *)
Fixpoint F_star_terminal (code : str) : bool :=
  match code with
  | [] => false
  | [c] => is_terminal c
  | c :: rest => (c =? chr_F)%N && F_star_terminal rest
  end.

(** The grammar [[0-9A-E] | F+[0-9A-E]]. *)
Definition code_grammar (code : str) : bool :=
  match code with
  | [] => false
  | [c] => is_terminal c
  | c :: rest => (c =? chr_F)%N && F_star_terminal rest
  end.

Definition is_prefix (a b : str) : Prop := exists t, b = a ++ t.

(** [code] is the code of [ch] in [mapping]. *)
Definition has_code (mapping : dict char str) (ch : char) (code : str) : Prop :=
  dict_get N.eqb mapping ch = Some code.

(** Distinct characters have distinct codes. *)
Definition mapping_injective (mapping : dict char str) : Prop :=
  forall a b code,
    dict_get N.eqb mapping a = Some code ->
    dict_get N.eqb mapping b = Some code -> a = b.

(** The count of a character in a frequency table (0 when absent). *)
Definition count_of (freqs : dict char Z) (ch : char) : Z :=
  dict_get_default N.eqb freqs ch 0%Z.

(** The rank order of the specification: greater count first, and for
    equal counts the smaller code point first. *)
Definition ranks_before (freqs : dict char Z) (a b : char) : Prop :=
  (count_of freqs a > count_of freqs b)%Z \/
  (count_of freqs a = count_of freqs b /\ (a < b)%N).

(** The key of [y] is not smaller than the key of [x]. *)
Definition not_after {A} (key : A -> Z * char) (x y : A) : Prop :=
  key_ltb (key y) (key x) = false.

(** [a] occurs at an earlier position of [l] than [b]. *)
Definition appears_before (l : list char) (a b : char) : Prop :=
  exists l1 l2 l3, l = l1 ++ a :: l2 ++ b :: l3.

(** The integer part of the logarithm in base 15 (0 at 0). *)
Fixpoint log15_aux (fuel n : nat) : nat :=
  match fuel with
  | O => 0
  | S fuel' => if n <? 15 then 0 else S (log15_aux fuel' (n / 15))
  end.

Definition log15 (n : nat) : nat := log15_aux n n.

(** The codes read off a stream by the scan of [DecompressText], as a
    function of the stream alone: a symbol other than [F] ends the code that
    the pending run of [F] symbols began; a run that reaches the end of the
    stream is a code by itself. *)
Fixpoint scan_codes (stream : str) (pending : str) : list str :=
  match stream with
  | [] => match pending with [] => [] | _ => [pending] end
  | c :: stream' =>
      if (c =? chr_F)%N then scan_codes stream' (pending ++ [c])
      else (pending ++ [c]) :: scan_codes stream' []
  end.

(** [first_code rest key rest']: the scan, placed at the start of the
    non-empty remainder [rest] of the stream, extracts [key] and leaves
    [rest'].  The three shapes are the three paths through the loop body:
    a symbol other than [F]; a run of [F] symbols with the symbol after it;
    a run of [F] symbols that ends the stream. *)
Inductive first_code : str -> str -> str -> Prop :=
| first_code_single (d : char) (t : str) :
    d <> chr_F -> first_code (d :: t) [d] t
| first_code_multi (n : nat) (d : char) (t : str) :
    d <> chr_F ->
    first_code (repeat chr_F (S n) ++ d :: t) (repeat chr_F (S n) ++ [d]) t
| first_code_truncated (n : nat) :
    first_code (repeat chr_F (S n)) (repeat chr_F (S n)) [].

(** The stream [tail] does not begin with [F]. *)
Definition not_F_head (tail : str) : Prop :=
  match tail with
  | [] => True
  | d :: _ => d <> chr_F
  end.

(** [inverse_map.get(key, '?')] *)
Definition decode_key (inverse_map : dict str char) (key : str) : char :=
  dict_get_default str_eqb inverse_map key chr_qmark.

(** One step of the loop that builds the inverse map. *)
Definition inverse_step (inverse_map : dict str char) (item : char * str)
    : dict str char :=
  dict_set str_eqb inverse_map (snd item) (fst item).

(** A hand-built mapping in which two characters share the code ['0']. *)
Definition shared_code_mapping : dict char str :=
  [(ord "a", py "0"); (ord "b", py "0")].

(** Closed form of the [i]-th code: [i / 15] symbols [F], then the digit
    of [i mod 15] (theorem [nth_code_closed_form]). *)
Definition code_of (i : nat) : str :=
  repeat chr_F (i / 15) ++ [hex_digit (i mod 15)].

(** The generator's state after it has yielded [n] codes. *)
Definition state_after (n : nat) : gen_state :=
  match n with
  | O => GenStart
  | S i =>
      if i <? 15 then GenSingle i
      else GenMulti (repeat chr_F (i / 15)) (i mod 15)
  end.

(** The sum of the counts of a frequency table. *)
Definition total_count (freqs : dict char Z) : Z :=
  fold_right Z.add 0%Z (dict_values freqs).

(** A code that the scan of [DecompressText] reads back whole: a run of
    [F] symbols, possibly empty, and one symbol other than [F]. *)
Definition self_delimiting (code : str) : Prop :=
  exists k d, code = repeat chr_F k ++ [d] /\ d <> chr_F.

(** A symbol of the alphabet [0-9A-F]. *)
Definition is_hex_symbol (c : char) : bool :=
  (is_terminal c || (c =? chr_F)%N)%bool.

(** The stream is empty or its last symbol is not [F]. *)
Definition ends_outside_F_run (stream : str) : Prop :=
  last stream chr_qmark <> chr_F.

(* ================================================================== *)
(** ** Running the program on small inputs *)

Example CountFrequencies_abca :
  CountFrequencies (py "abca") = [(ord "a", 2%Z); (ord "b", 1%Z); (ord "c", 1%Z)].
Proof. reflexivity. Qed.

Example SortCharacters_tie :
  SortCharacters (CountFrequencies (py "baAbz")) = py "bAaz".
Proof. reflexivity. Qed.

(** Items of equal keys keep their order; smaller keys come first. *)
Example list_sort_stable :
  list_sort (fun p : Z * char => (fst p, 0%N))
    [(2%Z, 1%N); (1%Z, 2%N); (2%Z, 3%N); (1%Z, 4%N)]
  = [(1%Z, 2%N); (1%Z, 4%N); (2%Z, 1%N); (2%Z, 3%N)].
Proof. reflexivity. Qed.

Example DecompressText_truncated :
  DecompressText (py "0F1FF") [(ord "x", py "0"); (ord "y", py "F1")]
  = Returned (py "xy?").
Proof. reflexivity. Qed.

Example DecompressText_unknown_code :
  DecompressText (py "0FE0") [(ord "a", py "0")] = Returned (py "a?a").
Proof. reflexivity. Qed.

Example CompressText_KeyError :
  CompressText (py "xz") [(ord "x", py "0")] = Raised (KeyError (ord "z")).
Proof. reflexivity. Qed.

Example gen_take_17 :
  gen_take 17 GenerateCodes =
  map py ["0";"1";"2";"3";"4";"5";"6";"7";"8";"9";"A";"B";"C";"D";"E";"F0";"F1"]%string.
Proof. reflexivity. Qed.

Example format_X_255 : format_X 255 = py "FF".
Proof. reflexivity. Qed.

Example log15_values :
  map log15 [0; 1; 14; 15; 224; 225; 3375] = [0; 0; 0; 1; 1; 2; 3].
Proof. reflexivity. Qed.

Example scan_codes_example :
  scan_codes (py "0FF1AF") [] = map py ["0"; "FF1"; "A"; "F"]%string.
Proof. reflexivity. Qed.

Example nth_code_values :
  map nth_code [0; 14; 15; 29; 30] = map py ["0"; "E"; "F0"; "FE"; "FF0"]%string.
Proof. reflexivity. Qed.

Example roundtrip_hello :
  let T := py "hello world" in
  let M := BuildMapping (SortCharacters (CountFrequencies T)) in
  exists s, CompressText T M = Returned s /\ DecompressText s M = Returned T.
Proof. eexists. split; vm_compute; reflexivity. Qed.

(* ================================================================== *)
(** ** The outcome monad and the dictionary operations *)

Lemma bind_Returned {A B} (m : outcome A) (k : A -> outcome B) (b : B) :
  bind m k = Returned b -> exists a, m = Returned a /\ k a = Returned b.
Proof.
  destruct m as [a | e |]; simpl; intros H; try discriminate.
  exists a. split; [reflexivity | exact H].
Qed.

Lemma str_eqb_eq (a b : str) : str_eqb a b = true <-> a = b.
Proof.
  unfold str_eqb. destruct (list_eq_dec N.eq_dec a b); split; intros H;
    congruence.
Qed.

Lemma str_eqb_refl (a : str) : str_eqb a a = true.
Proof. apply str_eqb_eq. reflexivity. Qed.

Section DictFacts.
Variables K V : Type.
Variable eqb : K -> K -> bool.
Hypothesis eqb_eq : forall a b, eqb a b = true <-> a = b.

Lemma eqb_false_iff (a b : K) : eqb a b = false <-> a <> b.
Proof.
  destruct (eqb a b) eqn:E.
  - apply eqb_eq in E. split; [discriminate | congruence].
  - split; [| reflexivity]. intros _ Hab. apply eqb_eq in Hab. congruence.
Qed.

Lemma dict_get_In (d : dict K V) k v :
  dict_get eqb d k = Some v -> In (k, v) d.
Proof.
  induction d as [| [k' v'] d IH]; simpl; [discriminate |].
  destruct (eqb k k') eqn:E.
  - apply eqb_eq in E. intros [= ->]. left. congruence.
  - intros H. right. auto.
Qed.

Lemma dict_get_None (d : dict K V) k :
  dict_get eqb d k = None <-> ~ In k (dict_keys d).
Proof.
  induction d as [| [k' v'] d IH]; simpl.
  - tauto.
  - destruct (eqb k k') eqn:E.
    + apply eqb_eq in E. split; [discriminate |]. intros H. exfalso. auto.
    + apply eqb_false_iff in E. rewrite IH. intuition congruence.
Qed.

Lemma In_dict_get (d : dict K V) k v :
  dict_wf d -> In (k, v) d -> dict_get eqb d k = Some v.
Proof.
  unfold dict_wf.
  induction d as [| [k' v'] d IH]; simpl; [tauto |].
  intros Hnd [Heq | Hin].
  - injection Heq as -> ->.
    replace (eqb k k) with true; [reflexivity |].
    symmetry. apply eqb_eq. reflexivity.
  - inversion Hnd as [| ? ? Hnotin Hnd']; subst.
    destruct (eqb k k') eqn:E.
    + apply eqb_eq in E. subst k'. exfalso. apply Hnotin.
      change k with (fst (k, v)). apply in_map. exact Hin.
    + auto.
Qed.

Lemma dict_set_absent (d : dict K V) k v :
  ~ In k (dict_keys d) -> dict_set eqb d k v = d ++ [(k, v)].
Proof.
  induction d as [| [k' v'] d IH]; simpl; [reflexivity |].
  intros Hnotin. destruct (eqb k k') eqn:E.
  - apply eqb_eq in E. exfalso. auto.
  - rewrite IH; [reflexivity | tauto].
Qed.

Lemma dict_set_keys_present (d : dict K V) k v :
  In k (dict_keys d) -> dict_keys (dict_set eqb d k v) = dict_keys d.
Proof.
  induction d as [| [k' v'] d IH]; simpl; [tauto |].
  intros Hin. destruct (eqb k k') eqn:E; simpl; [reflexivity |].
  apply eqb_false_iff in E. f_equal. apply IH.
  destruct Hin; [congruence | assumption].
Qed.

Lemma dict_get_set (d : dict K V) k v k' :
  dict_get eqb (dict_set eqb d k v) k' =
  if eqb k' k then Some v else dict_get eqb d k'.
Proof.
  induction d as [| [k0 v0] d IH]; simpl; [reflexivity |].
  destruct (eqb k k0) eqn:E; simpl.
  - apply eqb_eq in E. subst k0. destruct (eqb k' k); reflexivity.
  - rewrite IH. destruct (eqb k' k0) eqn:E0; [| reflexivity].
    apply eqb_eq in E0. subst k0.
    destruct (eqb k' k) eqn:E1; [| reflexivity].
    apply eqb_eq in E1. subst k'.
    assert (eqb k k = true) by (apply eqb_eq; reflexivity). congruence.
Qed.
End DictFacts.

Arguments dict_get_In {K V eqb} eqb_eq [d k v] _.
Arguments dict_get_None {K V eqb} eqb_eq d k.
Arguments In_dict_get {K V eqb} eqb_eq [d k v] _ _.
Arguments dict_set_absent {K V eqb} eqb_eq [d k] v _.
Arguments dict_set_keys_present {K V eqb} eqb_eq [d k] v _.
Arguments dict_get_set {K V eqb} eqb_eq d k v k'.

(* ================================================================== *)
(** ** The code generator *)

Lemma format_X_digit (n : nat) : n < 16 -> format_X n = [hex_digit n].
Proof.
  intros H. unfold format_X. destruct n as [| n]; [reflexivity |].
  simpl format_X_aux.
  destruct (Nat.ltb_spec (S n) 16) as [_ | Hge]; [reflexivity | lia].
Qed.

Lemma succ_div_mod_15 (j : nat) :
  (S (j mod 15) < 15 /\ S j / 15 = j / 15 /\ S j mod 15 = S (j mod 15)) \/
  (S (j mod 15) = 15 /\ S j / 15 = S (j / 15) /\ S j mod 15 = 0).
Proof.
  pose proof (Nat.div_mod_eq j 15) as Hj.
  pose proof (Nat.mod_upper_bound j 15 ltac:(lia)) as Hlt.
  destruct (Nat.eq_dec (S (j mod 15)) 15) as [Heq | Hne].
  - right. split; [exact Heq |].
    assert (S j = 15 * S (j / 15) + 0) as Hs by lia.
    split.
    + symmetry. apply (Nat.div_unique (S j) 15 (S (j / 15)) 0); lia.
    + symmetry. apply (Nat.mod_unique (S j) 15 (S (j / 15)) 0); lia.
  - left. split; [lia |].
    assert (S j = 15 * (j / 15) + S (j mod 15)) as Hs by lia.
    split.
    + symmetry. apply (Nat.div_unique (S j) 15 (j / 15) (S (j mod 15))); lia.
    + symmetry. apply (Nat.mod_unique (S j) 15 (j / 15) (S (j mod 15))); lia.
Qed.

Lemma repeat_snoc {A} (x : A) (n : nat) : repeat x n ++ [x] = repeat x (S n).
Proof. induction n as [| n IH]; simpl; [reflexivity | now rewrite IH]. Qed.

(** One [next] takes the state after [i] codes to the state after [i + 1]
    and yields the code of closed form. *)
Lemma gen_next_state_after (i : nat) :
  gen_next (state_after i) = (code_of i, state_after (S i)).
Proof.
  destruct i as [| j]; [reflexivity |].
  unfold state_after at 1.
  destruct (Nat.ltb_spec j 15) as [Hlt | Hge].
  - do 15 (destruct j as [| j]; [reflexivity |]). lia.
  - unfold gen_next, code_of.
    assert (Hs : state_after (S (S j)) =
                 GenMulti (repeat chr_F (S j / 15)) (S j mod 15)).
    { unfold state_after.
      destruct (Nat.ltb_spec (S j) 15); [lia | reflexivity]. }
    rewrite Hs.
    destruct (succ_div_mod_15 j) as [(Hlt & Hd & Hm) | (Heq & Hd & Hm)];
      rewrite Hd, Hm.
    + destruct (Nat.ltb_spec (S (j mod 15)) 15) as [_ | Hc]; [| lia].
      rewrite format_X_digit by lia. reflexivity.
    + destruct (Nat.ltb_spec (S (j mod 15)) 15) as [Hc | _]; [lia |].
      change (py "F") with [chr_F]. rewrite repeat_snoc. reflexivity.
Qed.

Lemma gen_take_state_after (n i : nat) :
  gen_take n (state_after i) = map code_of (seq i n).
Proof.
  revert i. induction n as [| n IH]; intros i; [reflexivity |].
  cbn [gen_take seq map]. rewrite gen_next_state_after. now rewrite IH.
Qed.

Lemma gen_take_GenerateCodes (n : nat) :
  gen_take n GenerateCodes = map code_of (seq 0 n).
Proof. exact (gen_take_state_after n 0). Qed.

Lemma iter_next_state_after (i : nat) :
  Nat.iter i (fun g => snd (gen_next g)) GenerateCodes = state_after i.
Proof.
  induction i as [| i IH]; [reflexivity |].
  cbn [Nat.iter nat_rect]. unfold Nat.iter in IH. rewrite IH.
  now rewrite gen_next_state_after.
Qed.

Lemma nth_code_closed_form (i : nat) : nth_code i = code_of i.
Proof.
  unfold nth_code. rewrite iter_next_state_after.
  now rewrite gen_next_state_after.
Qed.

Lemma hex_digit_terminal (n : nat) : n < 15 -> is_terminal (hex_digit n) = true.
Proof.
  intros H. do 15 (destruct n as [| n]; [reflexivity |]). lia.
Qed.

Lemma hex_digit_not_F (n : nat) : n < 15 -> hex_digit n <> chr_F.
Proof.
  intros H. do 15 (destruct n as [| n]; [discriminate |]). lia.
Qed.

Lemma hex_digit_inj (n m : nat) :
  n < 15 -> m < 15 -> hex_digit n = hex_digit m -> n = m.
Proof.
  intros Hn Hm. unfold hex_digit.
  destruct (Nat.ltb_spec n 10), (Nat.ltb_spec m 10);
    change (ord "0") with 48%N; change (ord "A") with 65%N; lia.
Qed.

(** A run of [F] symbols followed by a symbol other than [F] determines
    the length of the run, the symbol and what follows. *)
Lemma F_run_unique (a b : nat) (d1 d2 : char) (r1 r2 : str) :
  d1 <> chr_F -> d2 <> chr_F ->
  repeat chr_F a ++ d1 :: r1 = repeat chr_F b ++ d2 :: r2 ->
  a = b /\ d1 = d2 /\ r1 = r2.
Proof.
  intros H1 H2. revert b.
  induction a as [| a IH]; intros [| b]; simpl; intros H.
  - injection H as -> ->. auto.
  - injection H as -> _. congruence.
  - injection H as <- _. congruence.
  - injection H as H. destruct (IH b H) as (-> & -> & ->). auto.
Qed.

Lemma code_of_inj (i j : nat) : code_of i = code_of j -> i = j.
Proof.
  unfold code_of. intros H.
  pose proof (Nat.mod_upper_bound i 15 ltac:(lia)) as Hi.
  pose proof (Nat.mod_upper_bound j 15 ltac:(lia)) as Hj.
  apply F_run_unique in H; try (apply hex_digit_not_F; assumption).
  destruct H as (Hd & Hm & _). apply hex_digit_inj in Hm; try assumption.
  pose proof (Nat.div_mod_eq i 15) as Ei.
  pose proof (Nat.div_mod_eq j 15) as Ej.
  change (i / 15 = j / 15) in Hd. rewrite Hd, Hm in Ei. congruence.
Qed.

Lemma code_of_prefix (i j : nat) : is_prefix (code_of i) (code_of j) -> i = j.
Proof.
  intros [t Ht]. apply code_of_inj. unfold code_of in *.
  pose proof (Nat.mod_upper_bound i 15 ltac:(lia)) as Hi.
  pose proof (Nat.mod_upper_bound j 15 ltac:(lia)) as Hj.
  rewrite <- app_assoc in Ht. cbn [app] in Ht. symmetry in Ht.
  apply F_run_unique in Ht; try (apply hex_digit_not_F; assumption).
  destruct Ht as (Hd & Hm & _). congruence.
Qed.

Lemma F_star_terminal_cons (c : char) (rest : str) :
  rest <> [] ->
  F_star_terminal (c :: rest) = ((c =? chr_F)%N && F_star_terminal rest)%bool.
Proof. destruct rest; [congruence | reflexivity]. Qed.

Lemma F_run_terminal_nonempty (k : nat) (d : char) : repeat chr_F k ++ [d] <> [].
Proof. destruct k; discriminate. Qed.

Lemma F_star_terminal_run (k : nat) (d : char) :
  is_terminal d = true -> F_star_terminal (repeat chr_F k ++ [d]) = true.
Proof.
  intros Hd. induction k as [| k IH]; [exact Hd |].
  cbn [repeat app].
  rewrite F_star_terminal_cons by apply F_run_terminal_nonempty.
  rewrite IH. reflexivity.
Qed.

Lemma code_grammar_cons (c : char) (rest : str) :
  rest <> [] ->
  code_grammar (c :: rest) = ((c =? chr_F)%N && F_star_terminal rest)%bool.
Proof. destruct rest; [congruence | reflexivity]. Qed.

Lemma code_of_grammar (i : nat) : code_grammar (code_of i) = true.
Proof.
  unfold code_of.
  pose proof (Nat.mod_upper_bound i 15 ltac:(lia)) as Hi.
  pose proof (hex_digit_terminal Hi) as Hd.
  destruct (i / 15) as [| k]; [exact Hd |].
  cbn [repeat app].
  rewrite code_grammar_cons by apply F_run_terminal_nonempty.
  rewrite F_star_terminal_run by exact Hd. reflexivity.
Qed.

Lemma code_of_length (i : nat) : length (code_of i) = i / 15 + 1.
Proof. unfold code_of. now rewrite length_app, repeat_length. Qed.

(** C6. For every N, each of the first N codes of [GenerateCodes] matches
    the grammar [[0-9A-E] | F+[0-9A-E]], the first N codes are pairwise
    distinct, and none of them is a proper prefix of another: a generated
    code that is a prefix of a generated code is that code. *)
Theorem GenerateCodes_well_formed (N : nat) :
  Forall (fun code => code_grammar code = true) (gen_take N GenerateCodes) /\
  NoDup (gen_take N GenerateCodes) /\
  (forall c1 c2,
      In c1 (gen_take N GenerateCodes) -> In c2 (gen_take N GenerateCodes) ->
      is_prefix c1 c2 -> c1 = c2).
Proof.
  rewrite gen_take_GenerateCodes. repeat split.
  - apply Forall_forall. intros c Hc. apply in_map_iff in Hc.
    destruct Hc as (i & <- & _). apply code_of_grammar.
  - apply NoDup_map_NoDup_ForallPairs; [| apply seq_NoDup].
    intros i j _ _. apply code_of_inj.
  - intros c1 c2 H1 H2 Hp. apply in_map_iff in H1, H2.
    destruct H1 as (i & <- & _), H2 as (j & <- & _).
    f_equal. now apply code_of_prefix.
Qed.

(* ================================================================== *)
(** ** The frequency table *)

Lemma count_step_keys (freqs : dict char Z) (ch : char) :
  dict_keys (count_step freqs ch) =
  if in_dec N.eq_dec ch (dict_keys freqs) then dict_keys freqs
  else dict_keys freqs ++ [ch].
Proof.
  unfold count_step.
  destruct (dict_get N.eqb freqs ch) as [c |] eqn:E.
  - assert (Hin : In ch (dict_keys freqs)).
    { apply (dict_get_In N.eqb_eq) in E.
      change ch with (fst (ch, c)). now apply in_map. }
    rewrite (dict_set_keys_present N.eqb_eq) by exact Hin.
    destruct (in_dec N.eq_dec ch (dict_keys freqs)); tauto.
  - apply (dict_get_None N.eqb_eq) in E.
    rewrite (dict_set_absent N.eqb_eq) by exact E.
    destruct (in_dec N.eq_dec ch (dict_keys freqs)); [tauto |].
    unfold dict_keys. now rewrite map_app.
Qed.

Lemma count_step_wf (freqs : dict char Z) (ch : char) :
  dict_wf freqs -> dict_wf (count_step freqs ch).
Proof.
  unfold dict_wf. rewrite count_step_keys. intros Hnd.
  destruct (in_dec N.eq_dec ch (dict_keys freqs)) as [| Hnotin]; [exact Hnd |].
  apply NoDup_app; [exact Hnd | repeat constructor; simpl; tauto |].
  intros x Hx [<- | []]. tauto.
Qed.

Lemma count_step_In (freqs : dict char Z) (ch x : char) :
  In x (dict_keys (count_step freqs ch)) <-> In x (dict_keys freqs) \/ x = ch.
Proof.
  rewrite count_step_keys.
  destruct (in_dec N.eq_dec ch (dict_keys freqs)) as [Hin | Hnotin].
  - intuition (subst; auto).
  - rewrite in_app_iff. simpl. intuition (subst; auto).
Qed.

Lemma count_loop_keys (text : str) (freqs : dict char Z) :
  dict_wf freqs ->
  dict_wf (fold_left count_step text freqs) /\
  (forall x, In x (dict_keys (fold_left count_step text freqs)) <->
             In x (dict_keys freqs) \/ In x text).
Proof.
  revert freqs. induction text as [| ch text IH]; intros freqs Hwf; simpl.
  - split; [exact Hwf | tauto].
  - destruct (IH (count_step freqs ch) (count_step_wf ch Hwf)) as [Hwf' Hin].
    split; [exact Hwf' |].
    intros x. rewrite Hin, count_step_In. intuition (subst; auto).
Qed.

Lemma CountFrequencies_wf (text : str) : dict_wf (CountFrequencies text).
Proof. apply count_loop_keys. constructor. Qed.

Lemma CountFrequencies_In (text : str) (x : char) :
  In x (dict_keys (CountFrequencies text)) <-> In x text.
Proof.
  unfold CountFrequencies.
  destruct (@count_loop_keys text [] ltac:(constructor)) as [_ H].
  rewrite H. simpl. tauto.
Qed.

(** The table has one key per distinct character of the text. *)
Lemma CountFrequencies_size (text : str) :
  length (CountFrequencies text) = length (nodup N.eq_dec text).
Proof.
  rewrite <- (length_map fst). apply Permutation_length.
  apply NoDup_Permutation.
  - apply CountFrequencies_wf.
  - apply NoDup_nodup.
  - intros x. rewrite nodup_In. apply CountFrequencies_In.
Qed.

(* ================================================================== *)
(** ** Sorting *)

Lemma key_ltb_spec (a b : Z * char) :
  key_ltb a b = true <->
  (fst a < fst b)%Z \/ (fst a = fst b /\ (snd a < snd b)%N).
Proof.
  unfold key_ltb.
  rewrite orb_true_iff, andb_true_iff, Z.ltb_lt, Z.eqb_eq, N.ltb_lt.
  reflexivity.
Qed.

Lemma key_ltb_false (a b : Z * char) :
  key_ltb a b = false <->
  (fst b < fst a)%Z \/ (fst a = fst b /\ (snd b <= snd a)%N).
Proof.
  destruct (key_ltb a b) eqn:E.
  - apply key_ltb_spec in E. split; [discriminate | lia].
  - split; [| reflexivity]. intros _.
    assert (H : ~ ((fst a < fst b)%Z \/ (fst a = fst b /\ (snd a < snd b)%N))).
    { rewrite <- key_ltb_spec. congruence. }
    lia.
Qed.

Section Sorting.
Variable A : Type.
Variable key : A -> Z * char.

Lemma sort_insert_perm (x : A) (l : list A) :
Permutation (sort_insert key x l) (x :: l).
Proof.
induction l as [| y l IH]; simpl; [reflexivity |].
destruct (key_ltb (key y) (key x)); [| reflexivity].
rewrite IH. apply perm_swap.
Qed.

Lemma list_sort_perm (l : list A) : Permutation (list_sort key l) l.
Proof.
induction l as [| x l IH]; simpl; [reflexivity |].
rewrite sort_insert_perm. now constructor.
Qed.

Lemma sort_insert_sorted (x : A) (l : list A) :
StronglySorted (not_after key) l ->
StronglySorted (not_after key) (sort_insert key x l).
Proof.
induction 1 as [| y l Hs IH Hall]; simpl.
- repeat constructor.
- destruct (key_ltb (key y) (key x)) eqn:E.
  + constructor; [exact IH |].
    apply (Permutation_Forall (Permutation_sym (sort_insert_perm x l))).
    constructor; [| exact Hall].
    apply key_ltb_spec in E. unfold not_after. apply key_ltb_false. lia.
  + constructor; [constructor; assumption |].
    constructor; [exact E |].
    apply key_ltb_false in E.
    rewrite Forall_forall in *. intros z Hz.
    specialize (Hall z Hz). unfold not_after in *.
    apply key_ltb_false in Hall. apply key_ltb_false. lia.
Qed.

Lemma list_sort_sorted (l : list A) :
StronglySorted (not_after key) (list_sort key l).
Proof.
induction l as [| x l IH]; simpl; [constructor |].
now apply sort_insert_sorted.
Qed.
End Sorting.

Lemma SortCharacters_perm (freqs : dict char Z) :
  Permutation (SortCharacters freqs) (dict_keys freqs).
Proof. unfold SortCharacters, dict_keys. apply Permutation_map, list_sort_perm. Qed.

Lemma count_of_item (freqs : dict char Z) (p : char * Z) :
  dict_wf freqs -> In p freqs -> count_of freqs (fst p) = snd p.
Proof.
  intros Hwf Hin. destruct p as [ch c]. cbn [fst snd].
  unfold count_of, dict_get_default.
  now rewrite (In_dict_get N.eqb_eq Hwf Hin).
Qed.

Lemma sorted_items_ranked (freqs : dict char Z) (items : list (char * Z)) :
  dict_wf freqs ->
  (forall p, In p items -> In p freqs) ->
  NoDup (map fst items) ->
  StronglySorted (not_after SortKey) items ->
  StronglySorted (ranks_before freqs) (map fst items).
Proof.
  intros Hwf Hsub Hnd Hs.
  induction Hs as [| p l Hs IH Hall]; simpl; [constructor |].
  inversion Hnd as [| ? ? Hnotin Hnd']; subst.
  constructor.
  - apply IH; [| exact Hnd']. intros q Hq. apply Hsub. now right.
  - apply Forall_forall. intros b Hb. apply in_map_iff in Hb.
    destruct Hb as (q & <- & Hq).
    rewrite Forall_forall in Hall. specialize (Hall q Hq).
    unfold not_after in Hall. apply key_ltb_false in Hall.
    unfold SortKey in Hall. simpl in Hall.
    assert (Hne : fst p <> fst q).
    { intros Heq. apply Hnotin. rewrite Heq. now apply in_map. }
    unfold ranks_before.
    rewrite (@count_of_item freqs p Hwf (Hsub p (or_introl eq_refl))).
    rewrite (@count_of_item freqs q Hwf (Hsub q (or_intror Hq))).
    lia.
Qed.

Lemma SortCharacters_ranked (freqs : dict char Z) :
  dict_wf freqs -> StronglySorted (ranks_before freqs) (SortCharacters freqs).
Proof.
  intros Hwf. unfold SortCharacters.
  apply sorted_items_ranked; [exact Hwf | | | apply list_sort_sorted].
  - intros p Hp. apply (Permutation_in p (list_sort_perm SortKey freqs) Hp).
  - apply (Permutation_NoDup (Permutation_sym (SortCharacters_perm freqs))).
    exact Hwf.
Qed.

Lemma ranks_before_asym (freqs : dict char Z) (a b : char) :
  ranks_before freqs a b -> ranks_before freqs b a -> False.
Proof. unfold ranks_before. lia. Qed.

Lemma StronglySorted_app_inv {A} (R : A -> A -> Prop) (l1 l2 : list A) x y :
  StronglySorted R (l1 ++ x :: l2) -> In y l2 -> R x y.
Proof.
  induction l1 as [| z l1 IH]; simpl; intros Hs Hy.
  - apply StronglySorted_inv in Hs. destruct Hs as [_ Hall].
    rewrite Forall_forall in Hall. auto.
  - apply StronglySorted_inv in Hs. destruct Hs as [Hs _]. auto.
Qed.

(** C5. For every frequency table (a dictionary: its keys are pairwise
    different), [SortCharacters] returns the keys of the table, each once,
    ordered by descending count with equal counts broken by ascending code
    point: each character ranks before every character listed after it. In
    particular, of two keys with equal counts the one with the smaller code
    point appears first. *)
Theorem SortCharacters_order (freqs : dict char Z) :
  dict_wf freqs ->
  Permutation (SortCharacters freqs) (dict_keys freqs) /\
  StronglySorted (ranks_before freqs) (SortCharacters freqs) /\
  (forall a b,
      In a (dict_keys freqs) -> In b (dict_keys freqs) ->
      count_of freqs a = count_of freqs b -> (a < b)%N ->
      appears_before (SortCharacters freqs) a b).
Proof.
  intros Hwf.
  pose proof (SortCharacters_perm freqs) as Hperm.
  pose proof (SortCharacters_ranked Hwf) as Hsorted.
  repeat split; [exact Hperm | exact Hsorted |].
  intros a b Ha Hb Hcount Hlt.
  apply (Permutation_in _ (Permutation_sym Hperm)) in Ha, Hb.
  destruct (in_split _ _ Ha) as (l1 & l2 & Hl).
  rewrite Hl in Hb. apply in_app_or in Hb.
  destruct Hb as [Hb | [Hb | Hb]].
  - exfalso. destruct (in_split _ _ Hb) as (m1 & m2 & Hm).
    rewrite Hl, Hm, <- app_assoc in Hsorted. simpl in Hsorted.
    assert (Hba : ranks_before freqs b a).
    { apply (@StronglySorted_app_inv _ _ m1 (m2 ++ a :: l2) b a Hsorted).
      apply in_or_app. right. now left. }
    unfold ranks_before in Hba. lia.
  - lia.
  - destruct (in_split _ _ Hb) as (m1 & m2 & Hm).
    exists l1, m1, m2. now rewrite Hl, Hm.
Qed.

(** The tie-break example of the specification: ['A'] and ['a'] with equal
    counts. *)
Lemma SortCharacters_order_witness :
  appears_before (SortCharacters (CountFrequencies (py "aA"))) (ord "A") (ord "a").
Proof.
  apply (SortCharacters_order (CountFrequencies_wf (py "aA"))).
  - vm_compute. tauto.
  - vm_compute. tauto.
  - reflexivity.
  - reflexivity.
Defined.

(* ================================================================== *)
(** ** The mapping *)

Lemma build_loop_combine (l : list char) (mapping : dict char str) (i : nat) :
  NoDup l ->
  (forall ch, In ch l -> ~ In ch (dict_keys mapping)) ->
  fold_left build_step l (mapping, state_after i) =
  (mapping ++ combine l (map code_of (seq i (length l))),
   state_after (i + length l)).
Proof.
  revert mapping i. induction l as [| ch l IH]; intros mapping i Hnd Hfresh.
  - simpl. now rewrite app_nil_r, Nat.add_0_r.
  - inversion Hnd as [| ? ? Hnotin Hnd']; subst.
    cbn [fold_left]. unfold build_step at 2.
    rewrite gen_next_state_after.
    rewrite (dict_set_absent N.eqb_eq) by (apply Hfresh; now left).
    rewrite IH; [| exact Hnd' |].
    + cbn [length seq map combine]. rewrite <- app_assoc.
      cbn [app]. now rewrite Nat.add_succ_r.
    + intros x Hx. unfold dict_keys. rewrite map_app, in_app_iff.
      intros [Hin | [<- | []]].
      * apply (Hfresh x); [now right | exact Hin].
      * exact (Hnotin Hx).
Qed.

(** On a list of distinct characters the mapping pairs the characters, in
    order, with the first codes of the generator. *)
Lemma BuildMapping_combine (sorted_chars : list char) :
  NoDup sorted_chars ->
  BuildMapping sorted_chars =
  combine sorted_chars (map code_of (seq 0 (length sorted_chars))).
Proof.
  intros Hnd. unfold BuildMapping.
  change GenerateCodes with (state_after 0).
  rewrite build_loop_combine; [reflexivity | exact Hnd | intros ch _ []].
Qed.

Lemma combine_codes_get (f : nat -> str) (l : list char) (s i : nat) (ch : char) :
  NoDup l -> nth_error l i = Some ch ->
  dict_get N.eqb (combine l (map f (seq s (length l)))) ch = Some (f (s + i)).
Proof.
  revert s i. induction l as [| x l IH]; intros s i Hnd Hnth.
  - destruct i; discriminate.
  - inversion Hnd as [| ? ? Hnotin Hnd']; subst.
    cbn [length seq map combine dict_get].
    destruct i as [| i]; simpl in Hnth.
    + injection Hnth as ->. rewrite N.eqb_refl. now rewrite Nat.add_0_r.
    + assert (Hne : ch <> x).
      { intros ->. apply Hnotin. eapply nth_error_In. exact Hnth. }
      apply N.eqb_neq in Hne. rewrite Hne.
      rewrite (IH (S s) i Hnd' Hnth). f_equal. f_equal. lia.
Qed.

Lemma BuildMapping_rank (sorted_chars : list char) (i : nat) (ch : char) :
  NoDup sorted_chars -> nth_error sorted_chars i = Some ch ->
  dict_get N.eqb (BuildMapping sorted_chars) ch = Some (nth_code i).
Proof.
  intros Hnd Hnth. rewrite BuildMapping_combine by exact Hnd.
  rewrite nth_code_closed_form.
  exact (@combine_codes_get code_of sorted_chars 0 i ch Hnd Hnth).
Qed.

Lemma SortCharacters_NoDup (text : str) :
  NoDup (SortCharacters (CountFrequencies text)).
Proof.
  apply (Permutation_NoDup (Permutation_sym (SortCharacters_perm _))).
  apply CountFrequencies_wf.
Qed.

Lemma SortCharacters_In (text : str) (ch : char) :
  In ch (SortCharacters (CountFrequencies text)) <-> In ch text.
Proof.
  split; intros H.
  - apply CountFrequencies_In.
    exact (Permutation_in _ (SortCharacters_perm _) H).
  - apply (Permutation_in _ (Permutation_sym (SortCharacters_perm _))).
    apply CountFrequencies_In. exact H.
Qed.

Lemma SortCharacters_length (text : str) :
  length (SortCharacters (CountFrequencies text)) = length (nodup N.eq_dec text).
Proof.
  rewrite (Permutation_length (SortCharacters_perm _)).
  unfold dict_keys. rewrite length_map. apply CountFrequencies_size.
Qed.

(** C7. For every text with exactly 16 distinct characters, the ranked
    list has 16 entries and the character at rank 15 (the 16th) is assigned
    the code ['F0'] by [BuildMapping]. *)
Theorem rank_15_gets_F0 (text : str) :
  length (nodup N.eq_dec text) = 16 ->
  exists ch,
    nth_error (SortCharacters (CountFrequencies text)) 15 = Some ch /\
    dict_get N.eqb (BuildMapping (SortCharacters (CountFrequencies text))) ch
    = Some (py "F0").
Proof.
  intros H16. rewrite <- SortCharacters_length in H16.
  destruct (nth_error (SortCharacters (CountFrequencies text)) 15)
    as [ch |] eqn:Hnth.
  - exists ch. split; [reflexivity |].
    rewrite (@BuildMapping_rank _ 15 ch (SortCharacters_NoDup text) Hnth).
    reflexivity.
  - apply nth_error_None in Hnth. lia.
Qed.

Lemma rank_15_gets_F0_witness :
  exists ch,
    nth_error (SortCharacters (CountFrequencies (py "abcdefghijklmnop"))) 15
    = Some ch /\
    dict_get N.eqb
      (BuildMapping (SortCharacters (CountFrequencies (py "abcdefghijklmnop"))))
      ch = Some (py "F0").
Proof. apply (rank_15_gets_F0 (py "abcdefghijklmnop")). reflexivity. Defined.

(* ================================================================== *)
(** ** Code length *)

Lemma log15_aux_spec (fuel n : nat) :
  0 < n -> n <= fuel ->
  15 ^ log15_aux fuel n <= n < 15 ^ S (log15_aux fuel n).
Proof.
  revert n. induction fuel as [| fuel IH]; intros n Hpos Hle; [lia |].
  cbn [log15_aux]. destruct (Nat.ltb_spec n 15) as [Hlt | Hge].
  - simpl. lia.
  - assert (Hq : 0 < n / 15 <= fuel).
    { pose proof (Nat.div_mod_eq n 15). pose proof (Nat.mod_upper_bound n 15).
      lia. }
    destruct (IH (n / 15) (proj1 Hq) (proj2 Hq)) as [Hlo Hhi].
    pose proof (Nat.div_mod_eq n 15) as Hn.
    pose proof (Nat.mod_upper_bound n 15 ltac:(lia)) as Hm.
    rewrite !(Nat.pow_succ_r' 15) in *. lia.
Qed.

(** [log15] is the integer logarithm: [15 ^ log15 n <= n < 15 ^ (log15 n + 1)]. *)
Lemma log15_spec (n : nat) :
  0 < n -> 15 ^ log15 n <= n < 15 ^ S (log15 n).
Proof. intros H. apply log15_aux_spec; lia. Qed.

Lemma log15_upper (n k : nat) : 0 < n -> n < 15 ^ S k -> log15 n <= k.
Proof.
  intros Hpos Hlt. destruct (log15_spec Hpos) as [Hlo _].
  assert (H : 15 ^ log15 n < 15 ^ S k) by lia.
  apply Nat.pow_lt_mono_r_iff in H; lia.
Qed.

Lemma pow15_ge_square (k : nat) : (k + 1) * (k + 1) <= 15 ^ k.
Proof.
  induction k as [| k IH]; [simpl; lia |].
  rewrite Nat.pow_succ_r'. nia.
Qed.

(** C8, as the code has it. The [i]-th code of [GenerateCodes] (counting
    from 0) has length exactly [i / 15 + 1]: one symbol [F] for each full
    tier of 15 codes before it, then the terminal symbol.  The length is
    linear in the rank. *)
Theorem nth_code_length (i : nat) : length (nth_code i) = i / 15 + 1.
Proof. rewrite nth_code_closed_form. apply code_of_length. Qed.

(** C8 as stated fails. At rank 30 the code is ['FF0'], of length 3, one
    more than the number of base-15 digits of 30; and no bound of the
    form [a * log15 i + b] holds at every rank. *)
Lemma nth_code_length_not_logarithmic :
  nth_code 30 = py "FF0" /\
  log15 30 + 1 = 2 /\
  ~ (exists a b, forall i, length (nth_code i) <= a * log15 i + b).
Proof.
  split; [reflexivity | split; [reflexivity |]].
  intros (a & b & Hbound).
  set (k := a + b).
  pose proof (pow15_ge_square k) as Hsq.
  assert (Hp : 15 ^ S k = 15 * 15 ^ k) by apply Nat.pow_succ_r'.
  specialize (Hbound (15 ^ S k - 1)).
  rewrite nth_code_closed_form, code_of_length in Hbound.
  assert (Hlog : log15 (15 ^ S k - 1) <= k) by (apply log15_upper; lia).
  assert (Hdiv : 15 ^ k <= (15 ^ S k - 1) / 15 + 1).
  { rewrite Hp. pose proof (Nat.div_mod_eq (15 * 15 ^ k - 1) 15).
    pose proof (Nat.mod_upper_bound (15 * 15 ^ k - 1) 15). lia. }
  assert (Hak : a * log15 (15 ^ S k - 1) <= a * k) by (apply Nat.mul_le_mono_l; exact Hlog).
  assert (a * k + b < (k + 1) * (k + 1)) by (unfold k; nia).
  lia.
Qed.

(* ================================================================== *)
(** ** Compression *)

Lemma compress_loop_cases (text : str) (mapping : dict char str)
    (parts : list str) :
  (exists codes,
      Forall2 (has_code mapping) text codes /\
      compress_loop text mapping parts = Returned (parts ++ codes)) \/
  (exists ch,
      In ch text /\ dict_get N.eqb mapping ch = None /\
      compress_loop text mapping parts = Raised (KeyError ch)).
Proof.
  revert parts. induction text as [| ch text IH]; intros parts.
  - left. exists []. split; [constructor | simpl; now rewrite app_nil_r].
  - cbn [compress_loop]. unfold mapping_getitem.
    destruct (dict_get N.eqb mapping ch) as [code |] eqn:E; cbn [bind].
    + destruct (IH (parts ++ [code])) as [(codes & Hall & Hrun) | (x & Hx & Hnone & Hrun)].
      * left. exists (code :: codes). split; [constructor; assumption |].
        rewrite Hrun, <- app_assoc. reflexivity.
      * right. exists x. repeat split; [now right | exact Hnone | exact Hrun].
    + right. exists ch. repeat split; [now left | exact E].
Qed.

Lemma Forall2_has_code_In (mapping : dict char str) (text : str)
    (codes : list str) (ch : char) :
  Forall2 (has_code mapping) text codes -> In ch text ->
  dict_get N.eqb mapping ch <> None.
Proof.
  induction 1 as [| x code text codes Hx _ IH]; simpl; [tauto |].
  intros [<- | Hin]; [unfold has_code in Hx; congruence | auto].
Qed.

(** C4. For every text and mapping, [CompressText] fails with a
    [LookupError]-class exception (the [KeyError] of [mapping[ch]]) if and
    only if some character of the text has no entry in the mapping; when
    every character has an entry, it returns the concatenation of the
    characters' codes in text order. *)
Theorem CompressText_LookupError_iff (text : str) (mapping : dict char str) :
  ((exists e, CompressText text mapping = Raised e /\ is_LookupError e = true)
   <-> (exists ch, In ch text /\ dict_get N.eqb mapping ch = None)) /\
  ((forall ch, In ch text -> dict_get N.eqb mapping ch <> None) ->
   exists codes,
     Forall2 (has_code mapping) text codes /\
     CompressText text mapping = Returned (concat codes)).
Proof.
  unfold CompressText.
  destruct (compress_loop_cases text mapping [])
    as [(codes & Hall & Hrun) | (x & Hx & Hnone & Hrun)]; rewrite Hrun; cbn [bind app].
  - split.
    + split.
      * intros (e & He & _). discriminate.
      * intros (ch & Hin & Hnone). exfalso.
        exact (@Forall2_has_code_In mapping text codes ch Hall Hin Hnone).
    + intros _. exists codes. split; [exact Hall | reflexivity].
  - split.
    + split.
      * intros _. exists x. split; assumption.
      * intros _. exists (KeyError x). split; reflexivity.
    + intros Hall. exfalso. exact (Hall x Hx Hnone).
Qed.

Lemma CompressText_LookupError_iff_witness :
  (exists e, CompressText (py "ab") [(ord "a", py "0")] = Raised e /\
             is_LookupError e = true) /\
  (exists codes,
      Forall2 (has_code [(ord "a", py "0"); (ord "b", py "1")]) (py "ab") codes /\
      CompressText (py "ab") [(ord "a", py "0"); (ord "b", py "1")]
      = Returned (concat codes)).
Proof.
  split.
  - apply (CompressText_LookupError_iff (py "ab") [(ord "a", py "0")]).
    exists (ord "b"). split; [simpl; tauto | reflexivity].
  - apply (CompressText_LookupError_iff (py "ab")
             [(ord "a", py "0"); (ord "b", py "1")]).
    intros ch [<- | [<- | []]]; discriminate.
Defined.

(* ================================================================== *)
(** ** Scanning the stream *)

Lemma firstn_exact {A} (l1 l2 : list A) : firstn (length l1) (l1 ++ l2) = l1.
Proof. induction l1 as [| x l1 IH]; simpl; [reflexivity | now rewrite IH]. Qed.

Lemma skipn_exact {A} (l1 l2 : list A) : skipn (length l1) (l1 ++ l2) = l2.
Proof. induction l1 as [| x l1 IH]; simpl; [reflexivity | exact IH]. Qed.

Lemma str_index_app (pre : str) (c : char) (rest : str) :
  str_index (pre ++ c :: rest) (length pre) = Returned c.
Proof.
  unfold str_index. rewrite nth_error_app2 by lia.
  rewrite Nat.sub_diag. reflexivity.
Qed.

Lemma str_slice_app (pre key rest : str) (stop : nat) :
  stop = length pre + length key ->
  str_slice (pre ++ key ++ rest) (length pre) stop = key.
Proof.
  intros ->. unfold str_slice. rewrite skipn_exact.
  replace (length pre + length key - length pre) with (length key) by lia.
  apply firstn_exact.
Qed.

Lemma skip_F_run_step (fuel : nat) (compressed : str) (i : nat) :
  skip_F_run (S fuel) compressed i =
  (b <- (if i <? length compressed
         then c <- str_index compressed i ;; Returned (c =? chr_F)%N
         else Returned false) ;;
   if (b : bool) then skip_F_run fuel compressed (i + 1) else Returned i).
Proof. reflexivity. Qed.

(** The inner loop stops at the end of the run of [F] symbols. *)
Lemma skip_F_run_spec (fuel : nat) (pre : str) (n : nat) (tail : str) (k : nat) :
  not_F_head tail -> k <= n -> n - k < fuel ->
  skip_F_run fuel (pre ++ repeat chr_F n ++ tail) (length pre + k)
  = Returned (length pre + n).
Proof.
  revert k. induction fuel as [| fuel IH]; intros k Htail Hk Hfuel; [lia |].
  rewrite skip_F_run_step. rewrite !length_app, repeat_length.
  destruct (Nat.eq_dec k n) as [-> | Hne].
  - destruct tail as [| d t].
    + destruct (Nat.ltb_spec (length pre + n) (length pre + (n + length (@nil char))))
        as [Hlt | _]; [simpl in Hlt; lia | reflexivity].
    + destruct (Nat.ltb_spec (length pre + n) (length pre + (n + length (d :: t))))
        as [_ | Hge]; [| simpl in Hge; lia].
      assert (Hidx : str_index (pre ++ repeat chr_F n ++ d :: t) (length pre + n)
                     = Returned d).
      { rewrite app_assoc.
        replace (length pre + n) with (length (pre ++ repeat chr_F n))
          by (rewrite length_app, repeat_length; reflexivity).
        apply str_index_app. }
      rewrite Hidx. cbn [bind]. simpl in Htail. apply N.eqb_neq in Htail.
      rewrite Htail. reflexivity.
  - destruct (Nat.ltb_spec (length pre + k) (length pre + (n + length tail)))
      as [_ | Hge]; [| lia].
    assert (Hidx : str_index (pre ++ repeat chr_F n ++ tail) (length pre + k)
                   = Returned chr_F).
    { unfold str_index. rewrite nth_error_app2 by lia.
      replace (length pre + k - length pre) with k by lia.
      rewrite nth_error_app1 by (rewrite repeat_length; lia).
      rewrite nth_error_repeat by lia. reflexivity. }
    rewrite Hidx. cbn [bind]. rewrite N.eqb_refl.
    rewrite <- Nat.add_assoc. apply IH; [exact Htail | lia | lia].
Qed.

(** The [else] branch of the body: a run of [F] symbols and, if there is
    one, the symbol after it. *)
Lemma extract_key_F_run (fuel : nat) (pre : str) (n : nat) (tail : str) :
  not_F_head tail -> S n < fuel ->
  extract_key fuel (pre ++ repeat chr_F (S n) ++ tail) (length pre)
  = Returned (repeat chr_F (S n) ++ firstn 1 tail,
              length pre + length (repeat chr_F (S n) ++ firstn 1 tail)).
Proof.
  intros Htail Hfuel. unfold extract_key. cbv zeta.
  assert (Hidx : str_index (pre ++ repeat chr_F (S n) ++ tail) (length pre)
                 = Returned chr_F)
    by apply (str_index_app pre chr_F (repeat chr_F n ++ tail)).
  rewrite Hidx. cbn [bind]. rewrite N.eqb_refl. cbn [negb].
  pose proof (@skip_F_run_spec fuel pre (S n) tail 0 Htail ltac:(lia) ltac:(lia))
    as Hskip.
  rewrite Nat.add_0_r in Hskip. rewrite Hskip. cbn [bind].
  f_equal.
  assert (Hstop : (if length pre + S n <? length (pre ++ repeat chr_F (S n) ++ tail)
                   then length pre + S n + 1 else length pre + S n)
                  = length pre + length (repeat chr_F (S n) ++ firstn 1 tail)).
  { rewrite !length_app, repeat_length.
    destruct tail as [| d t]; cbn [firstn length].
    - destruct (Nat.ltb_spec (length pre + S n) (length pre + (S n + 0))); lia.
    - destruct (Nat.ltb_spec (length pre + S n) (length pre + (S n + S (length t))));
        lia. }
  rewrite Hstop. f_equal.
  rewrite <- (firstn_skipn 1 tail) at 1. rewrite (app_assoc (repeat chr_F (S n))).
  now apply str_slice_app.
Qed.

Lemma extract_key_spec (fuel : nat) (pre rest key rest' : str) :
  first_code rest key rest' -> length rest < fuel ->
  extract_key fuel (pre ++ rest) (length pre)
  = Returned (key, length pre + length key).
Proof.
  intros Hfc Hfuel. destruct Hfc as [d t Hd | n d t Hd | n].
  - unfold extract_key. cbv zeta. rewrite str_index_app. cbn [bind].
    apply N.eqb_neq in Hd. rewrite Hd. reflexivity.
  - rewrite length_app, repeat_length in Hfuel.
    exact (@extract_key_F_run fuel pre n (d :: t) Hd ltac:(lia)).
  - rewrite repeat_length in Hfuel.
    pose proof (@extract_key_F_run fuel pre n [] I ltac:(lia)) as H.
    cbn [firstn] in H. rewrite !app_nil_r in H. exact H.
Qed.

Lemma decompress_body_spec (fuel : nat) (inverse_map : dict str char)
    (pre rest key rest' : str) (result : list char) :
  first_code rest key rest' -> length rest < fuel ->
  decompress_body fuel (pre ++ rest) inverse_map (length pre, result)
  = Returned (length pre + length key, result ++ [decode_key inverse_map key]).
Proof.
  intros Hfc Hfuel. unfold decompress_body.
  rewrite (extract_key_spec pre Hfc Hfuel). reflexivity.
Qed.

Lemma F_run_split (s : str) :
  exists n tail, s = repeat chr_F n ++ tail /\ not_F_head tail.
Proof.
  induction s as [| c s (n & tail & -> & Ht)].
  - exists 0, []. simpl. auto.
  - destruct (N.eq_dec c chr_F) as [-> | Hne].
    + exists (S n), tail. auto.
    + exists 0, (c :: repeat chr_F n ++ tail). simpl. auto.
Qed.

Lemma first_code_exists (rest : str) :
  rest <> [] -> exists key rest', first_code rest key rest'.
Proof.
  destruct rest as [| c rest]; [congruence | intros _].
  destruct (N.eq_dec c chr_F) as [-> | Hc].
  - destruct (F_run_split rest) as (n & tail & -> & Ht).
    destruct tail as [| d t].
    + exists (repeat chr_F (S n)), []. rewrite app_nil_r.
      exact (first_code_truncated n).
    + exists (repeat chr_F (S n) ++ [d]), t. exact (first_code_multi n t Ht).
  - exists [c], rest. now constructor.
Qed.

Lemma first_code_app (rest key rest' : str) :
  first_code rest key rest' -> rest = key ++ rest' /\ 0 < length key.
Proof.
  intros [d t Hd | n d t Hd | n]; split; simpl; try lia.
  - reflexivity.
  - now rewrite <- app_assoc.
  - now rewrite app_nil_r.
Qed.

Lemma scan_codes_F_run (n : nat) (tail pending : str) :
  scan_codes (repeat chr_F n ++ tail) pending
  = scan_codes tail (pending ++ repeat chr_F n).
Proof.
  revert pending. induction n as [| n IH]; intros pending.
  - simpl. now rewrite app_nil_r.
  - cbn [repeat app scan_codes]. rewrite N.eqb_refl, IH, <- app_assoc.
    reflexivity.
Qed.

Lemma first_code_scan (rest key rest' : str) :
  first_code rest key rest' -> scan_codes rest [] = key :: scan_codes rest' [].
Proof.
  intros [d t Hd | n d t Hd | n].
  - cbn [scan_codes]. apply N.eqb_neq in Hd. rewrite Hd. reflexivity.
  - rewrite scan_codes_F_run. cbn [scan_codes app].
    apply N.eqb_neq in Hd. rewrite Hd. reflexivity.
  - rewrite <- (app_nil_r (repeat chr_F (S n))) at 1.
    rewrite scan_codes_F_run. reflexivity.
Qed.

(** A stream that does not end inside a run of [F] symbols is scanned
    independently of what follows it. *)
Lemma scan_codes_app (s1 s2 pending : str) :
  s1 <> [] -> last s1 chr_qmark <> chr_F ->
  scan_codes (s1 ++ s2) pending = scan_codes s1 pending ++ scan_codes s2 [].
Proof.
  revert pending. induction s1 as [| c s1 IH]; intros pending Hne Hlast;
    [congruence |].
  destruct s1 as [| c' s1].
  - cbn [last] in Hlast. apply N.eqb_neq in Hlast.
    cbn [app scan_codes]. rewrite Hlast. reflexivity.
  - change (last (c :: c' :: s1) chr_qmark) with (last (c' :: s1) chr_qmark)
      in Hlast.
    change ((c :: c' :: s1) ++ s2) with (c :: ((c' :: s1) ++ s2)).
    cbn [scan_codes]. destruct (c =? chr_F)%N.
    + apply IH; [discriminate | exact Hlast].
    + rewrite IH by (try discriminate; exact Hlast). reflexivity.
Qed.

(** The outer loop, started at any position of the stream, reaches the end
    of the stream and appends the decoding of every code it scans. *)
Lemma decompress_loop_from (fuel0 : nat) (inverse_map : dict str char)
    (fuel : nat) (pre rest : str) (result : list char) :
  length rest < fuel0 -> length rest < fuel ->
  while_loop fuel (fun st => Returned (fst st <? length (pre ++ rest)))
    (decompress_body fuel0 (pre ++ rest) inverse_map) (length pre, result)
  = Returned (length (pre ++ rest),
              result ++ map (decode_key inverse_map) (scan_codes rest [])).
Proof.
  revert pre rest result.
  induction fuel as [| fuel IH]; intros pre rest result H0 Hfuel; [lia |].
  cbn [while_loop bind fst].
  destruct (list_eq_dec N.eq_dec rest []) as [-> | Hne].
  - rewrite app_nil_r, Nat.ltb_irrefl. simpl. now rewrite app_nil_r.
  - destruct (first_code_exists Hne) as (key & rest' & Hfc).
    destruct (first_code_app Hfc) as [Happ Hlen].
    assert (Hlt : (length pre <? length (pre ++ rest)) = true).
    { apply Nat.ltb_lt. rewrite Happ, !length_app. lia. }
    rewrite Hlt, (decompress_body_spec inverse_map pre result Hfc H0).
    cbn [bind]. rewrite (first_code_scan Hfc). cbn [map].
    subst rest. rewrite length_app in H0, Hfuel.
    rewrite app_assoc.
    replace (length pre + length key) with (length (pre ++ key))
      by (rewrite length_app; reflexivity).
    rewrite IH by lia. do 2 f_equal. now rewrite <- app_assoc.
Qed.

(** With more fuel than the stream has symbols, [DecompressText] returns the
    decoding of the codes scanned off the stream. *)
Lemma DecompressText_fuel_enough (fuel : nat) (compressed : str)
    (mapping : dict char str) :
  length compressed < fuel ->
  DecompressText_fuel fuel compressed mapping
  = Returned (map (decode_key (build_inverse mapping)) (scan_codes compressed [])).
Proof.
  intros Hfuel. unfold DecompressText_fuel, decompress_loop. cbv zeta.
  pose proof (@decompress_loop_from fuel (build_inverse mapping) fuel []
                compressed [] Hfuel Hfuel) as H.
  cbn [app length] in H. rewrite H. reflexivity.
Qed.

Lemma DecompressText_scan (compressed : str) (mapping : dict char str) :
  DecompressText compressed mapping
  = Returned (map (decode_key (build_inverse mapping)) (scan_codes compressed [])).
Proof. apply DecompressText_fuel_enough. lia. Qed.

(* ================================================================== *)
(** ** The inverse map *)

Lemma build_inverse_fold (mapping : dict char str) :
  build_inverse mapping = fold_left inverse_step mapping [].
Proof. reflexivity. Qed.

Lemma inverse_loop_other (m : dict char str) (acc : dict str char) (code : str) :
  ~ In code (dict_values m) ->
  dict_get str_eqb (fold_left inverse_step m acc) code = dict_get str_eqb acc code.
Proof.
  revert acc. induction m as [| [ch c] m IH]; intros acc Hnotin; [reflexivity |].
  cbn [fold_left]. rewrite IH by (simpl in Hnotin; tauto).
  unfold inverse_step. cbn [fst snd]. rewrite (dict_get_set str_eqb_eq).
  destruct (str_eqb code c) eqn:E; [| reflexivity].
  apply str_eqb_eq in E. subst c. exfalso. apply Hnotin. now left.
Qed.

(** An entry of the mapping whose code no later entry carries is the one
    the inverse map keeps for that code. *)
Lemma build_inverse_last (m1 m2 : dict char str) (ch : char) (code : str) :
  ~ In code (dict_values m2) ->
  dict_get str_eqb (build_inverse (m1 ++ (ch, code) :: m2)) code = Some ch.
Proof.
  intros Hnotin. rewrite build_inverse_fold, fold_left_app. cbn [fold_left].
  rewrite inverse_loop_other by exact Hnotin.
  unfold inverse_step at 1. cbn [fst snd].
  rewrite (dict_get_set str_eqb_eq), str_eqb_refl. reflexivity.
Qed.

Lemma build_inverse_get (mapping : dict char str) (ch : char) (code : str) :
  NoDup (dict_values mapping) -> In (ch, code) mapping ->
  dict_get str_eqb (build_inverse mapping) code = Some ch.
Proof.
  intros Hnd Hin. destruct (in_split _ _ Hin) as (m1 & m2 & ->).
  apply build_inverse_last.
  unfold dict_values in Hnd. rewrite map_app in Hnd. cbn [map snd] in Hnd.
  apply NoDup_remove_2 in Hnd. intros H. apply Hnd, in_or_app. now right.
Qed.

(* ================================================================== *)
(** ** Decompression: termination and the placeholder *)

(** The loop body at any position inside the stream. *)
Lemma decompress_body_at (fuel : nat) (inverse_map : dict str char)
    (compressed : str) (i : nat) (result : list char) :
  length compressed < fuel -> i < length compressed ->
  exists key rest',
    first_code (skipn i compressed) key rest' /\
    extract_key fuel compressed i = Returned (key, i + length key) /\
    decompress_body fuel compressed inverse_map (i, result)
    = Returned (i + length key, result ++ [decode_key inverse_map key]) /\
    0 < length key /\
    i + length key + length rest' = length compressed.
Proof.
  intros Hfuel Hi.
  pose proof (firstn_skipn i compressed) as Hsplit.
  assert (Hpre : length (firstn i compressed) = i)
    by (rewrite length_firstn; lia).
  assert (Hrest : length (skipn i compressed) = length compressed - i)
    by apply length_skipn.
  assert (Hne : skipn i compressed <> []).
  { intros E. rewrite E in Hrest. simpl in Hrest. lia. }
  destruct (first_code_exists Hne) as (key & rest' & Hfc).
  destruct (first_code_app Hfc) as [Happ Hlen].
  exists key, rest'.
  assert (Hf : length (skipn i compressed) < fuel) by lia.
  pose proof (extract_key_spec (firstn i compressed) Hfc Hf) as Hk.
  pose proof (decompress_body_spec inverse_map (firstn i compressed) result Hfc Hf)
    as Hb.
  rewrite Hsplit, Hpre in Hk, Hb.
  repeat split; try assumption.
  rewrite Happ, length_app in Hrest. lia.
Qed.

(** C9. For every finite input string, well-formed or not, and every
    mapping: each iteration of the scan loop that starts inside the stream
    returns with the cursor moved strictly forward and not beyond the end,
    and the call returns an output string, the same one for every amount of
    fuel greater than the length of the stream. *)
Theorem DecompressText_terminates (compressed : str) (mapping : dict char str) :
  (forall fuel i result,
      length compressed < fuel -> i < length compressed ->
      exists i' result',
        decompress_body fuel compressed (build_inverse mapping) (i, result)
        = Returned (i', result') /\
        i < i' <= length compressed) /\
  (exists out,
      DecompressText compressed mapping = Returned out /\
      forall fuel, length compressed < fuel ->
                   DecompressText_fuel fuel compressed mapping = Returned out).
Proof.
  split.
  - intros fuel i result Hfuel Hi.
    destruct (@decompress_body_at fuel (build_inverse mapping) compressed i
              result Hfuel Hi)
      as (key & rest' & _ & _ & Hb & Hlen & Htot).
    eexists _, _. split; [exact Hb | lia].
  - eexists. split; [apply DecompressText_scan |].
    intros fuel Hfuel. now apply DecompressText_fuel_enough.
Qed.

Lemma DecompressText_terminates_witness :
  (exists i' result',
      decompress_body 4 (py "FFx") (build_inverse shared_code_mapping) (0, [])
      = Returned (i', result') /\ 0 < i' <= length (py "FFx")) /\
  (exists out, DecompressText (py "FFx") shared_code_mapping = Returned out).
Proof.
  split.
  - apply (DecompressText_terminates (py "FFx") shared_code_mapping);
      simpl; lia.
  - destruct (proj2 (DecompressText_terminates (py "FFx") shared_code_mapping))
      as (out & Hout & _).
    exists out. exact Hout.
Defined.



Lemma concat_scan_codes_bounded (n : nat) (stream : str) :
  length stream <= n -> concat (scan_codes stream []) = stream.
Proof.
  revert stream. induction n as [| n IH]; intros stream Hlen.
  - destruct stream; [reflexivity | simpl in Hlen; lia].
  - destruct (list_eq_dec N.eq_dec stream []) as [-> | Hne]; [reflexivity |].
    destruct (first_code_exists Hne) as (key & rest' & Hfc).
    destruct (first_code_app Hfc) as [Happ Hkey].
    rewrite (first_code_scan Hfc). cbn [concat].
    rewrite IH; [now symmetry |].
    rewrite Happ, length_app in Hlen. lia.
Qed.

(** The scanned codes are a cut of the stream into consecutive pieces. *)
Lemma concat_scan_codes (stream : str) : concat (scan_codes stream []) = stream.
Proof. exact (@concat_scan_codes_bounded (length stream) stream (le_n _)). Qed.

(** C10. For every stream and mapping, [DecompressText] returns one output
    character for each code scanned off the stream (the codes cut the
    stream into consecutive pieces), and at every position whose code is
    absent from the inverse map the output character is the question mark,
    code point 63 (U+003F). *)
Theorem placeholder_is_question_mark (compressed : str) (mapping : dict char str) :
  exists out,
    DecompressText compressed mapping = Returned out /\
    concat (scan_codes compressed []) = compressed /\
    length out = length (scan_codes compressed []) /\
    forall n key,
      nth_error (scan_codes compressed []) n = Some key ->
      dict_get str_eqb (build_inverse mapping) key = None ->
      nth_error out n = Some 63%N.
Proof.
  eexists. split; [apply DecompressText_scan |].
  split; [apply concat_scan_codes |]. split; [apply length_map |].
  intros n key Hn Hnone. rewrite nth_error_map, Hn. cbn [option_map].
  unfold decode_key, dict_get_default. rewrite Hnone. reflexivity.
Qed.

(* ================================================================== *)
(** ** Mappings that are not injective *)

(** C2 as stated fails. [shared_code_mapping] is a dictionary that gives
    ['a'] and ['b'] the same code ['0']; [DecompressText] builds the
    inverse map from it and returns ['bb'] for the stream ['00']. *)
Lemma non_injective_mapping_accepted :
  dict_wf shared_code_mapping /\
  ~ mapping_injective shared_code_mapping /\
  build_inverse shared_code_mapping = [(py "0", ord "b")] /\
  DecompressText (py "00") shared_code_mapping = Returned (py "bb").
Proof.
  split; [| split; [| split; reflexivity]].
  - unfold dict_wf. simpl. repeat constructor; simpl; intuition discriminate.
  - intros H.
    specialize (H (ord "a") (ord "b") (py "0") eq_refl eq_refl).
    discriminate H.
Qed.

(** C2, as the code has it. For every mapping that is not injective,
    [DecompressText] does not fail: building the inverse map succeeds, an
    entry of the mapping whose code no later entry carries being the one
    kept for that code (later entries overwrite earlier ones), and the
    stream is then scanned and a string returned. *)
Theorem non_injective_mapping_last_wins (mapping : dict char str)
    (compressed : str) :
  ~ mapping_injective mapping ->
  (exists out, DecompressText compressed mapping = Returned out) /\
  (forall m1 ch code m2,
      mapping = m1 ++ (ch, code) :: m2 -> ~ In code (dict_values m2) ->
      dict_get str_eqb (build_inverse mapping) code = Some ch).
Proof.
  intros _. split.
  - eexists. apply DecompressText_scan.
  - intros m1 ch code m2 -> Hlast. now apply build_inverse_last.
Qed.

Lemma non_injective_mapping_last_wins_witness :
  (exists out, DecompressText (py "00") shared_code_mapping = Returned out) /\
  (forall m1 ch code m2,
      shared_code_mapping = m1 ++ (ch, code) :: m2 -> ~ In code (dict_values m2) ->
      dict_get str_eqb (build_inverse shared_code_mapping) code = Some ch).
Proof.
  apply (@non_injective_mapping_last_wins shared_code_mapping (py "00")).
  intros H.
  specialize (H (ord "a") (ord "b") (py "0") eq_refl eq_refl).
  discriminate H.
Defined.

(* ================================================================== *)
(** ** Round trip *)

Lemma map_snd_combine {A B} (l1 : list A) (l2 : list B) :
  length l1 = length l2 -> map snd (combine l1 l2) = l2.
Proof.
  revert l2. induction l1 as [| x l1 IH]; intros [| y l2] H; simpl in *;
    try discriminate; [reflexivity |].
  f_equal. apply IH. lia.
Qed.

Lemma codes_NoDup (i n : nat) : NoDup (map code_of (seq i n)).
Proof.
  apply NoDup_map_NoDup_ForallPairs; [| apply seq_NoDup].
  intros a b _ _. apply code_of_inj.
Qed.

Lemma scan_codes_concat (codes : list str) :
  Forall (fun code => exists i, code = code_of i) codes ->
  scan_codes (concat codes) [] = codes.
Proof.
  induction 1 as [| code codes [i ->] _ IH]; [reflexivity |].
  cbn [concat]. unfold code_of at 1. rewrite <- app_assoc.
  rewrite scan_codes_F_run. cbn [app scan_codes].
  pose proof (@hex_digit_not_F (i mod 15)
                (Nat.mod_upper_bound i 15 ltac:(lia))) as Hd.
  apply N.eqb_neq in Hd. rewrite Hd, IH. reflexivity.
Qed.

Lemma decode_codes (inverse_map : dict str char) (text : str) (codes : list str) :
  Forall2 (fun ch code => dict_get str_eqb inverse_map code = Some ch) text codes ->
  map (decode_key inverse_map) codes = text.
Proof.
  induction 1 as [| ch code text codes Hget _ IH]; [reflexivity |].
  cbn [map]. unfold decode_key at 1, dict_get_default. now rewrite Hget, IH.
Qed.

Lemma Forall2_In_r {A B} (P : A -> B -> Prop) (l1 : list A) (l2 : list B) (y : B) :
  Forall2 P l1 l2 -> In y l2 -> exists x, In x l1 /\ P x y.
Proof.
  induction 1 as [| a b l1 l2 Hab _ IH]; simpl; [tauto |].
  intros [<- | Hin].
  - exists a. auto.
  - destruct (IH Hin) as (x & Hx & Hp). exists x. auto.
Qed.

(** The mapping built for a text: every character of the text has an entry,
    every code is one of the generator's, and no two entries share a code. *)
Lemma BuildMapping_of_text (text : str) :
  let sorted_chars := SortCharacters (CountFrequencies text) in
  let mapping := BuildMapping sorted_chars in
  (forall ch, In ch text -> dict_get N.eqb mapping ch <> None) /\
  (forall ch code, In (ch, code) mapping -> exists i, code = code_of i) /\
  NoDup (dict_values mapping).
Proof.
  intros sorted_chars mapping.
  pose proof (SortCharacters_NoDup text) as Hnd. fold sorted_chars in Hnd.
  assert (Hm : mapping = combine sorted_chars
                           (map code_of (seq 0 (length sorted_chars))))
    by (apply BuildMapping_combine; exact Hnd).
  repeat split.
  - intros ch Hin. apply SortCharacters_In in Hin. fold sorted_chars in Hin.
    destruct (In_nth_error _ _ Hin) as [i Hi].
    unfold mapping.
    rewrite (@BuildMapping_rank sorted_chars i ch Hnd Hi). discriminate.
  - intros ch code Hin. rewrite Hm in Hin. apply in_combine_r in Hin.
    apply in_map_iff in Hin. destruct Hin as (i & <- & _). now exists i.
  - rewrite Hm. unfold dict_values.
    rewrite map_snd_combine by (now rewrite length_map, length_seq).
    apply codes_NoDup.
Qed.

(** C1. For every finite text T, with M the mapping built from the ranked
    characters of T's frequency table, [CompressText T M] returns a stream
    and [DecompressText] of that stream under M returns T. *)
Theorem round_trip (T : str) :
  let M := BuildMapping (SortCharacters (CountFrequencies T)) in
  exists s,
    CompressText T M = Returned s /\ DecompressText s M = Returned T.
Proof.
  intros M.
  destruct (BuildMapping_of_text T) as (Hdom & Hcodes & Hinj). fold M in Hdom, Hcodes, Hinj.
  unfold CompressText.
  destruct (compress_loop_cases T M [])
    as [(codes & Hall & Hrun) | (x & Hx & Hnone & _)];
    [| exfalso; exact (Hdom x Hx Hnone)].
  rewrite Hrun. cbn [bind app]. exists (concat codes).
  split; [reflexivity |].
  rewrite DecompressText_scan, scan_codes_concat.
  - f_equal. apply decode_codes.
    eapply Forall2_impl; [| exact Hall].
    intros ch code Hcode. apply build_inverse_get; [exact Hinj |].
    exact (dict_get_In N.eqb_eq Hcode).
  - apply Forall_forall. intros code Hin.
    destruct (@Forall2_In_r _ _ _ T codes code Hall Hin) as (ch & _ & Hcode).
    apply (Hcodes ch). exact (dict_get_In N.eqb_eq Hcode).
Qed.

(* ================================================================== *)
(** * Further properties of the codec *)

Unset Implicit Arguments.

(* ================================================================== *)
(** ** CountFrequencies: counts, keys and their order *)

Lemma count_step_count_of (freqs : dict char Z) (x ch : char) :
  count_of (count_step freqs x) ch
  = (count_of freqs ch + (if N.eq_dec x ch then 1 else 0))%Z.
Proof.
  unfold count_of, dict_get_default, count_step.
  destruct (dict_get N.eqb freqs x) as [c |] eqn:Ex;
    rewrite (dict_get_set N.eqb_eq);
    destruct (N.eqb_spec ch x) as [-> | Hne].
  - rewrite Ex. destruct (N.eq_dec x x); [reflexivity | congruence].
  - destruct (N.eq_dec x ch); [congruence | lia].
  - rewrite Ex. destruct (N.eq_dec x x); [reflexivity | congruence].
  - destruct (N.eq_dec x ch); [congruence | lia].
Qed.

Lemma count_loop_count_of (text : str) (freqs : dict char Z) (ch : char) :
  count_of (fold_left count_step text freqs) ch
  = (count_of freqs ch + Z.of_nat (count_occ N.eq_dec text ch))%Z.
Proof.
  revert freqs. induction text as [| x text IH]; intros freqs.
  - simpl. lia.
  - cbn [fold_left count_occ]. rewrite IH, count_step_count_of.
    destruct (N.eq_dec x ch); lia.
Qed.

Lemma CountFrequencies_count_of (text : str) (ch : char) :
  count_of (CountFrequencies text) ch = Z.of_nat (count_occ N.eq_dec text ch).
Proof. unfold CountFrequencies. rewrite count_loop_count_of. reflexivity. Qed.

(** X1. The table of a text gives every character the number of its
    occurrences in the text: a key's value is that number, at least 1, and
    a character that does not occur has no entry. *)
Theorem CountFrequencies_counts_occurrences (text : str) (ch : char) :
  dict_get N.eqb (CountFrequencies text) ch
  = (if in_dec N.eq_dec ch text
     then Some (Z.of_nat (count_occ N.eq_dec text ch))
     else None) /\
  (forall c, dict_get N.eqb (CountFrequencies text) ch = Some c -> (1 <= c)%Z).
Proof.
  assert (Hget : dict_get N.eqb (CountFrequencies text) ch
                 = (if in_dec N.eq_dec ch text
                    then Some (Z.of_nat (count_occ N.eq_dec text ch))
                    else None)).
  { pose proof (CountFrequencies_count_of text ch) as Hc.
    unfold count_of, dict_get_default in Hc.
    destruct (in_dec N.eq_dec ch text) as [Hin | Hnotin].
    - destruct (dict_get N.eqb (CountFrequencies text) ch) as [c |] eqn:E;
        [now rewrite Hc |].
      apply (dict_get_None N.eqb_eq) in E. exfalso. apply E.
      now apply CountFrequencies_In.
    - apply (dict_get_None N.eqb_eq). intros H. apply Hnotin.
      now apply CountFrequencies_In. }
  split; [exact Hget |].
  intros c Hc. rewrite Hget in Hc.
  destruct (in_dec N.eq_dec ch text) as [Hin | Hnotin]; [| discriminate].
  injection Hc as <-. apply (count_occ_In N.eq_dec) in Hin. lia.
Qed.

Lemma CountFrequencies_snoc (text : str) (x : char) :
  CountFrequencies (text ++ [x]) = count_step (CountFrequencies text) x.
Proof. unfold CountFrequencies. now rewrite fold_left_app. Qed.

(** X2. The keys of the table are the distinct characters of the text in
    the order of their first occurrence. *)
Theorem CountFrequencies_keys_first_occurrence (text : str) :
  dict_keys (CountFrequencies text) = rev (nodup N.eq_dec (rev text)).
Proof.
  induction text as [| x text IH] using rev_ind; [reflexivity |].
  rewrite CountFrequencies_snoc, count_step_keys, rev_app_distr.
  cbn [rev app nodup].
  destruct (in_dec N.eq_dec x (dict_keys (CountFrequencies text))) as [Hin | Hnotin];
    destruct (in_dec N.eq_dec x (rev text)) as [Hr | Hr].
  - exact IH.
  - exfalso. apply Hr. apply in_rev. rewrite rev_involutive.
    now apply CountFrequencies_In.
  - exfalso. apply Hnotin. apply CountFrequencies_In. now apply in_rev.
  - cbn [rev]. now rewrite IH.
Qed.

Lemma count_step_cons (k : char) (v : Z) (freqs : dict char Z) (x : char) :
  x <> k -> count_step ((k, v) :: freqs) x = (k, v) :: count_step freqs x.
Proof.
  intros Hne. apply N.eqb_neq in Hne. unfold count_step. cbn [dict_get].
  rewrite Hne. destruct (dict_get N.eqb freqs x); cbn [dict_set];
    now rewrite Hne.
Qed.

Lemma count_step_total (freqs : dict char Z) (x : char) :
  total_count (count_step freqs x) = (total_count freqs + 1)%Z.
Proof.
  induction freqs as [| [k v] freqs IH]; [reflexivity |].
  destruct (N.eq_dec x k) as [-> | Hne].
  - unfold count_step. cbn [dict_get dict_set]. rewrite N.eqb_refl.
    cbn [dict_set]. rewrite ?N.eqb_refl. unfold total_count. simpl. lia.
  - rewrite count_step_cons by exact Hne.
    unfold total_count in *. simpl in *. lia.
Qed.

(** X3. The counts of the table add up to the length of the text. *)
Theorem CountFrequencies_total (text : str) :
  total_count (CountFrequencies text) = Z.of_nat (length text).
Proof.
  induction text as [| x text IH] using rev_ind; [reflexivity |].
  rewrite CountFrequencies_snoc, count_step_total, IH, length_app.
  simpl. lia.
Qed.

(* ================================================================== *)
(** ** SortCharacters: independence of the table's order, and ranks *)

Lemma count_of_perm (f1 f2 : dict char Z) (ch : char) :
  dict_wf f1 -> Permutation f1 f2 -> count_of f1 ch = count_of f2 ch.
Proof.
  intros Hwf Hperm.
  assert (Hwf2 : dict_wf f2).
  { unfold dict_wf, dict_keys in *.
    exact (Permutation_NoDup (Permutation_map fst Hperm) Hwf). }
  unfold count_of, dict_get_default.
  destruct (dict_get N.eqb f1 ch) as [c |] eqn:E1.
  - apply (dict_get_In N.eqb_eq) in E1.
    apply (Permutation_in _ Hperm) in E1.
    now rewrite (In_dict_get N.eqb_eq Hwf2 E1).
  - destruct (dict_get N.eqb f2 ch) as [c |] eqn:E2; [| reflexivity].
    apply (dict_get_In N.eqb_eq) in E2.
    apply (Permutation_in _ (Permutation_sym Hperm)) in E2.
    rewrite (In_dict_get N.eqb_eq Hwf E2) in E1. discriminate.
Qed.

(** Two lists sorted by an asymmetric relation that hold the same elements
    are the same list. *)
Lemma sorted_perm_unique {A : Type} (R : A -> A -> Prop) (l1 l2 : list A) :
  (forall a b, R a b -> R b a -> False) ->
  StronglySorted R l1 -> StronglySorted R l2 -> Permutation l1 l2 -> l1 = l2.
Proof.
  intros Hasym. revert l2.
  induction l1 as [| a l1 IH]; intros l2 Hs1 Hs2 Hperm.
  - apply Permutation_nil in Hperm. now subst.
  - destruct l2 as [| b l2].
    { apply Permutation_sym, Permutation_nil in Hperm. discriminate. }
    apply StronglySorted_inv in Hs1, Hs2.
    destruct Hs1 as [Hs1 Hall1], Hs2 as [Hs2 Hall2].
    rewrite Forall_forall in Hall1, Hall2.
    assert (Hab : a = b).
    { assert (Ha : In a (b :: l2))
        by (apply (Permutation_in _ Hperm); now left).
      assert (Hb : In b (a :: l1))
        by (apply (Permutation_in _ (Permutation_sym Hperm)); now left).
      destruct Ha as [Ha | Ha]; [now symmetry |].
      destruct Hb as [Hb | Hb]; [exact Hb |].
      exfalso. exact (Hasym a b (Hall1 b Hb) (Hall2 a Ha)). }
    subst b. f_equal. apply IH; try assumption.
    exact (Permutation_cons_inv Hperm).
Qed.

Lemma StronglySorted_weaken {A : Type} (R R' : A -> A -> Prop) (l : list A) :
  (forall a b, R a b -> R' a b) -> StronglySorted R l -> StronglySorted R' l.
Proof.
  intros Himp. induction 1 as [| x l Hs IH Hall]; constructor; [exact IH |].
  eapply Forall_impl; [| exact Hall]. intros b. apply Himp.
Qed.

Lemma SortCharacters_perm_eq (f1 f2 : dict char Z) :
  dict_wf f1 -> Permutation f1 f2 -> SortCharacters f1 = SortCharacters f2.
Proof.
  intros Hwf Hperm.
  assert (Hwf2 : dict_wf f2).
  { unfold dict_wf, dict_keys in *.
    exact (Permutation_NoDup (Permutation_map fst Hperm) Hwf). }
  apply (sorted_perm_unique (ranks_before f1)).
  - apply ranks_before_asym.
  - now apply SortCharacters_ranked.
  - apply (StronglySorted_weaken (ranks_before f2));
      [| apply SortCharacters_ranked; exact Hwf2].
    intros a b. unfold ranks_before.
    now rewrite (count_of_perm f1 f2 a Hwf Hperm),
                (count_of_perm f1 f2 b Hwf Hperm).
  - rewrite (SortCharacters_perm f1), (SortCharacters_perm f2).
    unfold dict_keys. now apply Permutation_map.
Qed.

(** X4. The ranked list does not depend on the order in which the table
    holds its entries: two tables with the same entries, in any order, are
    ranked alike. *)
Theorem SortCharacters_order_independent (f1 f2 : dict char Z) :
  dict_wf f1 -> Permutation f1 f2 -> SortCharacters f1 = SortCharacters f2.
Proof. exact (SortCharacters_perm_eq f1 f2). Qed.

Lemma SortCharacters_order_independent_witness :
  SortCharacters [(ord "a", 1%Z); (ord "b", 2%Z); (ord "A", 1%Z)]
  = SortCharacters [(ord "A", 1%Z); (ord "a", 1%Z); (ord "b", 2%Z)].
Proof.
  apply SortCharacters_order_independent.
  - unfold dict_wf. simpl. repeat constructor; simpl; intuition discriminate.
  - apply Permutation_sym. apply (Permutation_cons_app [_; _] []). reflexivity.
Defined.

Lemma StronglySorted_nth {A : Type} (R : A -> A -> Prop) (l : list A)
    (i j : nat) (a b : A) :
  StronglySorted R l -> nth_error l i = Some a -> nth_error l j = Some b ->
  i < j -> R a b.
Proof.
  intros Hs. revert i j.
  induction Hs as [| x l Hs IH Hall]; intros i j Hi Hj Hlt.
  - destruct i; discriminate.
  - destruct j as [| j]; [lia |]. cbn [nth_error] in Hj.
    destruct i as [| i]; cbn [nth_error] in Hi.
    + injection Hi as ->. rewrite Forall_forall in Hall.
      apply Hall. eapply nth_error_In. exact Hj.
    + apply (IH i j Hi Hj). lia.
Qed.

(** The rank of a character of the text, and its code. *)
Lemma has_code_rank (text : str) (ch : char) (code : str) :
  has_code (BuildMapping (SortCharacters (CountFrequencies text))) ch code ->
  exists i,
    nth_error (SortCharacters (CountFrequencies text)) i = Some ch /\
    code = code_of i.
Proof.
  intros Hcode. unfold has_code in Hcode.
  pose proof (SortCharacters_NoDup text) as Hnd.
  assert (Hin : In ch (SortCharacters (CountFrequencies text))).
  { apply (dict_get_In N.eqb_eq) in Hcode.
    rewrite BuildMapping_combine in Hcode by exact Hnd.
    eapply in_combine_l. exact Hcode. }
  destruct (In_nth_error _ _ Hin) as [i Hi].
  exists i. split; [exact Hi |].
  rewrite (@BuildMapping_rank _ i ch Hnd Hi), nth_code_closed_form in Hcode.
  congruence.
Qed.

(** X5. In the mapping built for a text, a character that occurs more
    often than another has the earlier rank, hence the code generated
    earlier, and its code is not longer. *)
Theorem frequent_characters_get_earlier_codes (text : str) (a b : char)
    (code_a code_b : str) :
  has_code (BuildMapping (SortCharacters (CountFrequencies text))) a code_a ->
  has_code (BuildMapping (SortCharacters (CountFrequencies text))) b code_b ->
  count_occ N.eq_dec text b < count_occ N.eq_dec text a ->
  exists i j,
    i < j /\ code_a = nth_code i /\ code_b = nth_code j /\
    length code_a <= length code_b.
Proof.
  intros Ha Hb Hcount.
  destruct (has_code_rank text a code_a Ha) as (i & Hi & ->).
  destruct (has_code_rank text b code_b Hb) as (j & Hj & ->).
  pose proof (SortCharacters_ranked (CountFrequencies_wf text)) as Hsorted.
  assert (Hlt : i < j).
  { destruct (Nat.lt_trichotomy i j) as [Hlt | [Heq | Hgt]]; [exact Hlt | |].
    - subst j. rewrite Hi in Hj. injection Hj as ->. lia.
    - pose proof (StronglySorted_nth _ _ j i b a Hsorted Hj Hi Hgt) as Hr.
      unfold ranks_before in Hr.
      rewrite !CountFrequencies_count_of in Hr. lia. }
  exists i, j. rewrite !nth_code_closed_form, !code_of_length.
  repeat split; [exact Hlt |].
  assert (i / 15 <= j / 15) by (apply Nat.Div0.div_le_mono; lia). lia.
Qed.

Lemma frequent_characters_get_earlier_codes_witness :
  exists i j,
    i < j /\ py "0" = nth_code i /\ py "1" = nth_code j /\
    length (py "0") <= length (py "1").
Proof.
  apply (frequent_characters_get_earlier_codes (py "abb") (ord "b") (ord "a")).
  - reflexivity.
  - reflexivity.
  - simpl. lia.
Defined.

(* ================================================================== *)
(** ** GenerateCodes and BuildMapping *)

Lemma div_mod_15 (k r : nat) :
  r < 15 -> (15 * k + r) / 15 = k /\ (15 * k + r) mod 15 = r.
Proof.
  intros Hr. split; symmetry.
  - apply (Nat.div_unique (15 * k + r) 15 k r); lia.
  - apply (Nat.mod_unique (15 * k + r) 15 k r); lia.
Qed.

(** X6. The codes come in tiers of 15: the code of index [15 * k + r],
    [r < 15], is [k] symbols [F] followed by [format(r, 'X')]. *)
Theorem nth_code_tier (k r : nat) :
  r < 15 -> nth_code (15 * k + r) = repeat chr_F k ++ format_X r.
Proof.
  intros Hr. rewrite nth_code_closed_form. unfold code_of.
  destruct (div_mod_15 k r Hr) as [-> ->].
  rewrite format_X_digit by lia. reflexivity.
Qed.

Lemma nth_code_tier_witness : nth_code (15 * 2 + 11) = repeat chr_F 2 ++ format_X 11.
Proof. apply nth_code_tier. lia. Defined.

Lemma build_loop_state (l : list char) (mapping : dict char str) (i : nat) :
  snd (fold_left build_step l (mapping, state_after i))
  = state_after (i + length l).
Proof.
  revert mapping i. induction l as [| ch l IH]; intros mapping i.
  - simpl. now rewrite Nat.add_0_r.
  - cbn [fold_left]. unfold build_step at 2. rewrite gen_next_state_after.
    rewrite IH. cbn [length]. f_equal. lia.
Qed.

Lemma build_loop_other (l : list char) (mapping : dict char str)
    (g : gen_state) (ch : char) :
  ~ In ch l ->
  dict_get N.eqb (fst (fold_left build_step l (mapping, g))) ch
  = dict_get N.eqb mapping ch.
Proof.
  revert mapping g. induction l as [| x l IH]; intros mapping g Hnotin;
    [reflexivity |].
  cbn [fold_left]. unfold build_step at 2.
  destruct (gen_next g) as [code g'].
  rewrite IH by (simpl in Hnotin; tauto).
  rewrite (dict_get_set N.eqb_eq).
  destruct (N.eqb_spec ch x) as [-> | _]; [| reflexivity].
  exfalso. apply Hnotin. now left.
Qed.

(** X7. [BuildMapping] on any list, repeats included: a character gets the
    code whose index is the position of its last occurrence in the list (an
    earlier code drawn for it is overwritten and given to no one), and a
    character that is not in the list gets no entry. *)
Theorem BuildMapping_last_occurrence (l1 l2 : list char) (ch : char) :
  ~ In ch l2 ->
  dict_get N.eqb (BuildMapping (l1 ++ ch :: l2)) ch = Some (nth_code (length l1)) /\
  (~ In ch l1 -> dict_get N.eqb (BuildMapping (l1 ++ l2)) ch = None).
Proof.
  intros Hnotin. split.
  - unfold BuildMapping. rewrite fold_left_app. cbn [fold_left].
    change GenerateCodes with (state_after 0).
    destruct (fold_left build_step l1 ([], state_after 0)) as [m1 g1] eqn:E1.
    assert (Hg : g1 = state_after (length l1)).
    { change g1 with (snd (m1, g1)). rewrite <- E1.
      exact (build_loop_state l1 [] 0). }
    subst g1. unfold build_step at 2. rewrite gen_next_state_after.
    rewrite build_loop_other by exact Hnotin.
    rewrite (dict_get_set N.eqb_eq), N.eqb_refl.
    now rewrite nth_code_closed_form.
  - intros Hnotin1. unfold BuildMapping. rewrite build_loop_other; [reflexivity |].
    rewrite in_app_iff. tauto.
Qed.

Lemma BuildMapping_last_occurrence_witness :
  dict_get N.eqb (BuildMapping (py "ab" ++ ord "a" :: py "c")) (ord "a")
  = Some (nth_code (length (py "ab"))) /\
  (~ In (ord "a") (py "ab") ->
   dict_get N.eqb (BuildMapping (py "ab" ++ py "c")) (ord "a") = None).
Proof.
  apply BuildMapping_last_occurrence.
  simpl. intuition discriminate.
Defined.

Lemma map_fst_combine {A B : Type} (l1 : list A) (l2 : list B) :
  length l1 = length l2 -> map fst (combine l1 l2) = l1.
Proof.
  revert l2. induction l1 as [| x l1 IH]; intros [| y l2] H; simpl in *;
    try discriminate; [reflexivity |].
  f_equal. apply IH. lia.
Qed.

Lemma shared_value_same_key {K V : Type} (d : list (K * V)) (a b : K) (v : V) :
  NoDup (map snd d) -> In (a, v) d -> In (b, v) d -> a = b.
Proof.
  induction d as [| [k w] d IH]; simpl; [tauto |].
  intros Hnd Ha Hb. inversion Hnd as [| ? ? Hnotin Hnd']; subst.
  assert (Hv : forall x, In (x, v) d -> In v (map snd d)).
  { intros x Hx. change v with (snd (x, v)). now apply in_map. }
  destruct Ha as [Ha | Ha], Hb as [Hb | Hb].
  - congruence.
  - injection Ha as _ ->. exfalso. apply Hnotin. exact (Hv b Hb).
  - injection Hb as _ ->. exfalso. apply Hnotin. exact (Hv a Ha).
  - now apply IH.
Qed.

(** X8. On a list of pairwise different characters [BuildMapping] returns
    the dictionary whose keys are the list, in order, whose values are the
    first codes of a fresh generator, in order, and which is injective. *)
Theorem BuildMapping_distinct (sorted_chars : list char) :
  NoDup sorted_chars ->
  dict_keys (BuildMapping sorted_chars) = sorted_chars /\
  dict_values (BuildMapping sorted_chars)
  = gen_take (length sorted_chars) GenerateCodes /\
  mapping_injective (BuildMapping sorted_chars).
Proof.
  intros Hnd. rewrite BuildMapping_combine by exact Hnd.
  rewrite gen_take_GenerateCodes.
  assert (Hlen : length sorted_chars
                 = length (map code_of (seq 0 (length sorted_chars))))
    by now rewrite length_map, length_seq.
  split; [| split].
  - unfold dict_keys. now apply map_fst_combine.
  - unfold dict_values. now apply map_snd_combine.
  - intros a b code Ha Hb.
    apply (dict_get_In N.eqb_eq) in Ha, Hb.
    apply (shared_value_same_key _ a b code) in Ha; [exact Ha | | exact Hb].
    rewrite map_snd_combine by exact Hlen. apply codes_NoDup.
Qed.

Lemma BuildMapping_distinct_witness :
  dict_keys (BuildMapping (py "xyz")) = py "xyz" /\
  dict_values (BuildMapping (py "xyz")) = gen_take (length (py "xyz")) GenerateCodes /\
  mapping_injective (BuildMapping (py "xyz")).
Proof.
  apply BuildMapping_distinct.
  simpl. repeat constructor; simpl; intuition discriminate.
Defined.

(* ================================================================== *)
(** ** CompressText: composition, the error it reports, its output *)

Lemma has_code_codes_unique (mapping : dict char str) (text : str)
    (codes1 codes2 : list str) :
  Forall2 (has_code mapping) text codes1 ->
  Forall2 (has_code mapping) text codes2 -> codes1 = codes2.
Proof.
  intros H1. revert codes2.
  induction H1 as [| ch c1 text codes1 Hc1 _ IH]; intros codes2 H2;
    inversion H2 as [| ? c2 ? codes2' Hc2 H2']; subst; [reflexivity |].
  unfold has_code in *. f_equal; [congruence | now apply IH].
Qed.

(** [CompressText] returns exactly when every character has a code, and
    then returns the concatenation of the codes. *)
Lemma CompressText_Returned (text : str) (mapping : dict char str) (s : str) :
  CompressText text mapping = Returned s <->
  exists codes, Forall2 (has_code mapping) text codes /\ s = concat codes.
Proof.
  unfold CompressText.
  destruct (compress_loop_cases text mapping [])
    as [(codes & Hall & Hrun) | (x & Hx & Hnone & Hrun)]; rewrite Hrun;
    cbn [bind app].
  - split.
    + intros [= <-]. now exists codes.
    + intros (codes' & Hall' & ->).
      now rewrite (has_code_codes_unique mapping text codes codes' Hall Hall').
  - split; [discriminate |].
    intros (codes & Hall & _). exfalso.
    exact (@Forall2_has_code_In mapping text codes x Hall Hx Hnone).
Qed.

(** X9. Compression distributes over concatenation of texts: if two texts
    compress under a mapping, their concatenation compresses to the
    concatenation of the two streams. *)
Theorem CompressText_app (t1 t2 : str) (mapping : dict char str) (s1 s2 : str) :
  CompressText t1 mapping = Returned s1 ->
  CompressText t2 mapping = Returned s2 ->
  CompressText (t1 ++ t2) mapping = Returned (s1 ++ s2).
Proof.
  intros H1 H2. apply CompressText_Returned in H1, H2.
  destruct H1 as (codes1 & Hall1 & ->), H2 as (codes2 & Hall2 & ->).
  apply CompressText_Returned. exists (codes1 ++ codes2).
  split; [now apply Forall2_app | now rewrite concat_app].
Qed.

Lemma CompressText_app_witness :
  CompressText (py "ab" ++ py "ba") [(ord "a", py "0"); (ord "b", py "F1")]
  = Returned (py "0F1" ++ py "F10").
Proof. apply CompressText_app; reflexivity. Defined.

Lemma compress_loop_Raised (text : str) (mapping : dict char str)
    (parts : list str) (e : exn) :
  compress_loop text mapping parts = Raised e <->
  exists t1 ch t2,
    text = t1 ++ ch :: t2 /\
    (forall x, In x t1 -> dict_get N.eqb mapping x <> None) /\
    dict_get N.eqb mapping ch = None /\ e = KeyError ch.
Proof.
  revert parts. induction text as [| x text IH]; intros parts.
  - simpl. split; [discriminate |].
    intros (t1 & ch & t2 & H & _). destruct t1; discriminate.
  - cbn [compress_loop]. unfold mapping_getitem.
    destruct (dict_get N.eqb mapping x) as [code |] eqn:E; cbn [bind].
    + rewrite IH. split.
      * intros (t1 & ch & t2 & -> & Hpre & Hnone & ->).
        exists (x :: t1), ch, t2. repeat split; try assumption.
        intros y [<- | Hy]; [congruence | now apply Hpre].
      * intros (t1 & ch & t2 & Heq & Hpre & Hnone & ->).
        destruct t1 as [| y t1]; simpl in Heq; injection Heq as Hx Ht.
        -- subst ch. congruence.
        -- subst y text. exists t1, ch, t2. repeat split; try assumption.
           intros z Hz. apply Hpre. now right.
    + split.
      * intros [= <-]. exists [], x, text. repeat split; try assumption.
        intros y [].
      * intros (t1 & ch & t2 & Heq & Hpre & Hnone & ->).
        destruct t1 as [| y t1]; simpl in Heq; injection Heq as Hx Ht.
        -- now subst ch.
        -- subst y. exfalso. apply (Hpre x); [now left | exact E].
Qed.

(** X10. [CompressText] raises exactly when the text has a character
    without an entry, and the [KeyError] it raises carries the first such
    character of the text. *)
Theorem CompressText_KeyError_first_missing (text : str)
    (mapping : dict char str) (e : exn) :
  CompressText text mapping = Raised e <->
  exists t1 ch t2,
    text = t1 ++ ch :: t2 /\
    (forall x, In x t1 -> dict_get N.eqb mapping x <> None) /\
    dict_get N.eqb mapping ch = None /\ e = KeyError ch.
Proof.
  rewrite <- (compress_loop_Raised text mapping []).
  unfold CompressText.
  destruct (compress_loop text mapping []); cbn [bind];
    split; intros H; try discriminate; injection H as ->; reflexivity.
Qed.

Lemma code_of_symbols (i : nat) :
  Forall (fun c => is_hex_symbol c = true) (code_of i).
Proof.
  unfold code_of. apply Forall_app. split.
  - apply Forall_forall. intros c Hc. apply repeat_spec in Hc. now subst.
  - constructor; [| constructor]. unfold is_hex_symbol.
    rewrite hex_digit_terminal; [reflexivity |].
    apply Nat.mod_upper_bound. lia.
Qed.

(** The codes of the mapping built for a text are the codes of the ranks
    below the number of distinct characters. *)
Lemma built_codes_ranks (text : str) (codes : list str) :
  Forall2 (has_code (BuildMapping (SortCharacters (CountFrequencies text))))
          text codes ->
  Forall (fun code => exists i,
              i < length (nodup N.eq_dec text) /\ code = code_of i) codes.
Proof.
  intros Hall. apply Forall_forall. intros code Hin.
  destruct (@Forall2_In_r _ _ _ text codes code Hall Hin) as (ch & _ & Hcode).
  destruct (has_code_rank text ch code Hcode) as (i & Hi & ->).
  exists i. split; [| reflexivity].
  rewrite <- SortCharacters_length. apply nth_error_Some. congruence.
Qed.

(** X11. The stream that [CompressText] returns under the mapping built
    for the text is a string over the alphabet [0-9A-F]. *)
Theorem compressed_stream_alphabet (text : str) (s : str) :
  CompressText text (BuildMapping (SortCharacters (CountFrequencies text)))
  = Returned s ->
  Forall (fun c => is_hex_symbol c = true) s.
Proof.
  intros H. apply CompressText_Returned in H.
  destruct H as (codes & Hall & ->).
  apply built_codes_ranks in Hall.
  induction Hall as [| code codes (i & _ & ->) _ IH]; [constructor |].
  cbn [concat]. apply Forall_app. split; [apply code_of_symbols | exact IH].
Qed.

Lemma compressed_stream_alphabet_witness :
  Forall (fun c => is_hex_symbol c = true) (py "21003").
Proof. apply (compressed_stream_alphabet (py "hello")). reflexivity. Defined.

Lemma concat_length_bounds (codes : list str) (n : nat) :
  Forall (fun code => exists i, i < n /\ code = code_of i) codes ->
  length codes <= length (concat codes) /\
  (n <= 15 -> length (concat codes) = length codes).
Proof.
  induction 1 as [| code codes (i & Hi & ->) _ [IHlo IHeq]];
    [simpl; split; lia |].
  cbn [concat length]. rewrite length_app, code_of_length. split; [lia |].
  intros Hn. rewrite (IHeq Hn).
  rewrite (Nat.div_small i 15) by lia. lia.
Qed.

(** X12. Under the mapping built for the text the stream is never shorter
    than the text, and it has exactly the length of the text when the text
    has at most 15 distinct characters. *)
Theorem compressed_stream_length (text : str) (s : str) :
  CompressText text (BuildMapping (SortCharacters (CountFrequencies text)))
  = Returned s ->
  length text <= length s /\
  (length (nodup N.eq_dec text) <= 15 -> length s = length text).
Proof.
  intros H. apply CompressText_Returned in H.
  destruct H as (codes & Hall & ->).
  rewrite (Forall2_length Hall).
  apply concat_length_bounds. now apply built_codes_ranks.
Qed.

Lemma compressed_stream_length_witness :
  length (py "hello") <= length (py "21003") /\
  (length (nodup N.eq_dec (py "hello")) <= 15 ->
   length (py "21003") = length (py "hello")).
Proof. apply (compressed_stream_length (py "hello")). reflexivity. Defined.

(* ================================================================== *)
(** ** Round trips under other mappings *)

Lemma scan_codes_self_delimiting (codes : list str) :
  Forall self_delimiting codes -> scan_codes (concat codes) [] = codes.
Proof.
  induction 1 as [| code codes (k & d & -> & Hd) _ IH]; [reflexivity |].
  cbn [concat]. rewrite <- app_assoc, scan_codes_F_run. cbn [app scan_codes].
  apply N.eqb_neq in Hd. rewrite Hd, IH. reflexivity.
Qed.

Lemma round_trip_general (text : str) (mapping : dict char str) :
  NoDup (dict_values mapping) ->
  (forall ch code, In (ch, code) mapping -> self_delimiting code) ->
  (forall ch, In ch text -> dict_get N.eqb mapping ch <> None) ->
  exists s,
    CompressText text mapping = Returned s /\
    DecompressText s mapping = Returned text.
Proof.
  intros Hinj Hcodes Hdom. unfold CompressText.
  destruct (compress_loop_cases text mapping [])
    as [(codes & Hall & Hrun) | (x & Hx & Hnone & _)];
    [| exfalso; exact (Hdom x Hx Hnone)].
  rewrite Hrun. cbn [bind app]. exists (concat codes).
  split; [reflexivity |].
  rewrite DecompressText_scan, scan_codes_self_delimiting.
  - f_equal. apply decode_codes.
    eapply Forall2_impl; [| exact Hall].
    intros ch code Hcode. apply build_inverse_get; [exact Hinj |].
    exact (dict_get_In N.eqb_eq Hcode).
  - apply Forall_forall. intros code Hin.
    destruct (@Forall2_In_r _ _ _ text codes code Hall Hin) as (ch & _ & Hcode).
    apply (Hcodes ch). exact (dict_get_In N.eqb_eq Hcode).
Qed.

Lemma injective_values_NoDup (mapping : dict char str) :
  dict_wf mapping -> mapping_injective mapping -> NoDup (dict_values mapping).
Proof.
  induction mapping as [| [k v] m IH]; intros Hwf Hinj; [constructor |].
  pose proof Hwf as Hwf0.
  unfold dict_wf in Hwf. cbn [dict_keys map fst] in Hwf.
  inversion Hwf as [| ? ? Hnotin Hwf']; subst.
  assert (Hhead : dict_get N.eqb ((k, v) :: m) k = Some v)
    by (cbn [dict_get]; now rewrite N.eqb_refl).
  assert (Htail : forall a c, In (a, c) m ->
                              dict_get N.eqb ((k, v) :: m) a = Some c).
  { intros a c Hin. apply (In_dict_get N.eqb_eq Hwf0). now right. }
  cbn [dict_values map snd]. constructor.
  - intros Hin. apply in_map_iff in Hin. destruct Hin as ([k' v'] & Hv & Hin).
    cbn [snd] in Hv. subst v'.
    assert (k' = k) by exact (Hinj k' k v (Htail k' v Hin) Hhead).
    subst k'. apply Hnotin. change k with (fst (k, v)). now apply in_map.
  - apply IH; [exact Hwf' |].
    intros a b code Ha Hb.
    apply (dict_get_In N.eqb_eq) in Ha, Hb.
    exact (Hinj a b code (Htail a code Ha) (Htail b code Hb)).
Qed.

Lemma values_NoDup_injective (mapping : dict char str) :
  NoDup (dict_values mapping) -> mapping_injective mapping.
Proof.
  intros Hnd a b code Ha Hb.
  apply (dict_get_In N.eqb_eq) in Ha, Hb.
  exact (shared_value_same_key mapping a b code Hnd Ha Hb).
Qed.

(** X13. The round trip holds under any mapping, hand-built ones included,
    that is an injective dictionary whose codes are runs of [F] ended by one
    symbol other than [F], provided every character of the text has an
    entry. *)
Theorem round_trip_any_mapping (text : str) (mapping : dict char str) :
  dict_wf mapping -> mapping_injective mapping ->
  (forall ch code, has_code mapping ch code -> self_delimiting code) ->
  (forall ch, In ch text -> dict_get N.eqb mapping ch <> None) ->
  exists s,
    CompressText text mapping = Returned s /\
    DecompressText s mapping = Returned text.
Proof.
  intros Hwf Hinj Hcodes Hdom. apply round_trip_general.
  - now apply injective_values_NoDup.
  - intros ch code Hin. apply (Hcodes ch). unfold has_code.
    exact (In_dict_get N.eqb_eq Hwf Hin).
  - exact Hdom.
Qed.

Lemma round_trip_any_mapping_witness :
  exists s,
    CompressText (py "yxy") [(ord "x", py "Fz"); (ord "y", py "q")] = Returned s /\
    DecompressText s [(ord "x", py "Fz"); (ord "y", py "q")] = Returned (py "yxy").
Proof.
  apply round_trip_any_mapping.
  - unfold dict_wf. simpl. repeat constructor; simpl; intuition discriminate.
  - apply values_NoDup_injective.
    simpl. repeat constructor; simpl; intuition discriminate.
  - intros ch code Hc. unfold has_code in Hc. cbn [dict_get] in Hc.
    destruct (N.eqb ch (ord "x")).
    + injection Hc as <-. exists 1, (ord "z"). split; [reflexivity | discriminate].
    + destruct (N.eqb ch (ord "y")); [| discriminate].
      injection Hc as <-. exists 0, (ord "q"). split; [reflexivity | discriminate].
  - intros ch [<- | [<- | [<- | []]]]; discriminate.
Defined.

Lemma code_of_self_delimiting (i : nat) : self_delimiting (code_of i).
Proof.
  exists (i / 15), (hex_digit (i mod 15)). split; [reflexivity |].
  apply hex_digit_not_F. apply Nat.mod_upper_bound. lia.
Qed.

(** X14. The mapping built for one text serves every text over the same
    characters: if each character of [text'] occurs in [text], then
    [text'] compresses under the mapping of [text] and decompresses back to
    itself. *)
Theorem round_trip_reused_mapping (text text' : str) :
  (forall ch, In ch text' -> In ch text) ->
  exists s,
    CompressText text' (BuildMapping (SortCharacters (CountFrequencies text)))
    = Returned s /\
    DecompressText s (BuildMapping (SortCharacters (CountFrequencies text)))
    = Returned text'.
Proof.
  intros Hsub.
  destruct (BuildMapping_of_text text) as (Hdom & Hcodes & Hinj).
  apply round_trip_general.
  - exact Hinj.
  - intros ch code Hin. destruct (Hcodes ch code Hin) as [i ->].
    apply code_of_self_delimiting.
  - intros ch Hin. apply Hdom. now apply Hsub.
Qed.

Lemma round_trip_reused_mapping_witness :
  exists s,
    CompressText (py "olleh") (BuildMapping (SortCharacters (CountFrequencies (py "hello"))))
    = Returned s /\
    DecompressText s (BuildMapping (SortCharacters (CountFrequencies (py "hello"))))
    = Returned (py "olleh").
Proof.
  apply round_trip_reused_mapping.
  intros ch H. simpl in *. intuition.
Defined.

(* ================================================================== *)
(** ** DecompressText: its output, and concatenated streams *)

Lemma scan_codes_nonempty (stream pending code : str) :
  In code (scan_codes stream pending) -> code <> [].
Proof.
  revert pending. induction stream as [| c stream IH]; intros pending.
  - destruct pending; simpl; [tauto |]. intros [<- | []]. discriminate.
  - cbn [scan_codes]. destruct (c =? chr_F)%N; [apply IH |].
    intros [<- | Hin]; [| exact (IH _ Hin)].
    intros E. apply app_eq_nil in E. destruct E as [_ E]. discriminate.
Qed.

Lemma concat_length_nonempty (l : list str) :
  (forall code, In code l -> code <> []) -> length l <= length (concat l).
Proof.
  induction l as [| code l IH]; intros Hne; [simpl; lia |].
  cbn [concat length]. rewrite length_app.
  assert (length l <= length (concat l))
    by (apply IH; intros c Hc; apply Hne; now right).
  assert (code <> []) by (apply Hne; now left).
  destruct code; [congruence | simpl; lia].
Qed.

Lemma inverse_loop_source (m : dict char str) (acc : dict str char)
    (code : str) (ch : char) :
  dict_get str_eqb (fold_left inverse_step m acc) code = Some ch ->
  In (ch, code) m \/ dict_get str_eqb acc code = Some ch.
Proof.
  revert acc. induction m as [| [ch0 code0] m IH]; intros acc H; [now right |].
  cbn [fold_left] in H. apply IH in H. destruct H as [H | H]; [left; now right |].
  unfold inverse_step in H. cbn [fst snd] in H.
  rewrite (dict_get_set str_eqb_eq) in H.
  destruct (str_eqb code code0) eqn:E; [| now right].
  apply str_eqb_eq in E. injection H as ->. subst code0. left. now left.
Qed.

(** X15. The output of [DecompressText] has at most one character for each
    symbol of the stream, and each of its characters is a key of the
    mapping or the placeholder ['?']. *)
Theorem DecompressText_output_bounds (compressed : str) (mapping : dict char str) :
  exists out,
    DecompressText compressed mapping = Returned out /\
    length out <= length compressed /\
    Forall (fun c => c = chr_qmark \/ In c (dict_keys mapping)) out.
Proof.
  eexists. split; [apply DecompressText_scan |]. split.
  - rewrite length_map. rewrite <- (concat_scan_codes compressed) at 2.
    apply concat_length_nonempty. intros code. apply scan_codes_nonempty.
  - apply Forall_forall. intros c Hc. apply in_map_iff in Hc.
    destruct Hc as (key & <- & _). unfold decode_key, dict_get_default.
    destruct (dict_get str_eqb (build_inverse mapping) key) as [ch |] eqn:E;
      [right | now left].
    rewrite build_inverse_fold in E. apply inverse_loop_source in E.
    destruct E as [E | E]; [| discriminate].
    change ch with (fst (ch, key)). now apply in_map.
Qed.

(** X16. Decompression distributes over concatenation of streams when the
    first stream is empty or does not end with [F]: the output for
    [s1 ++ s2] is the output for [s1] followed by the output for [s2]. *)
Theorem DecompressText_app (s1 s2 : str) (mapping : dict char str)
    (out1 out2 : str) :
  ends_outside_F_run s1 ->
  DecompressText s1 mapping = Returned out1 ->
  DecompressText s2 mapping = Returned out2 ->
  DecompressText (s1 ++ s2) mapping = Returned (out1 ++ out2).
Proof.
  unfold ends_outside_F_run. intros Hlast H1 H2.
  rewrite DecompressText_scan in *.
  injection H1 as <-. injection H2 as <-.
  destruct (list_eq_dec N.eq_dec s1 []) as [-> | Hne]; [reflexivity |].
  rewrite scan_codes_app by assumption. now rewrite map_app.
Qed.

Lemma DecompressText_app_witness :
  DecompressText (py "0F1" ++ py "F10") [(ord "a", py "0"); (ord "b", py "F1")]
  = Returned (py "ab" ++ py "ba").
Proof.
  apply DecompressText_app.
  - unfold ends_outside_F_run. simpl. discriminate.
  - reflexivity.
  - reflexivity.
Defined.

(* ================================================================== *)
(** ** The mapping as a function of the text *)

Lemma CountFrequencies_items (text : str) (ch : char) (c : Z) :
  In (ch, c) (CountFrequencies text) <->
  In ch text /\ c = Z.of_nat (count_occ N.eq_dec text ch).
Proof.
  pose proof (CountFrequencies_count_of text ch) as Hc.
  unfold count_of, dict_get_default in Hc.
  split.
  - intros Hin. split.
    + apply CountFrequencies_In. change ch with (fst (ch, c)). now apply in_map.
    + rewrite (In_dict_get N.eqb_eq (CountFrequencies_wf text) Hin) in Hc.
      exact Hc.
  - intros [Hin ->]. apply (dict_get_In N.eqb_eq).
    destruct (dict_get N.eqb (CountFrequencies text) ch) as [c |] eqn:E;
      [now rewrite Hc |].
    apply (dict_get_None N.eqb_eq) in E. exfalso. apply E.
    now apply CountFrequencies_In.
Qed.

Lemma CountFrequencies_perm (t1 t2 : str) :
  Permutation t1 t2 ->
  Permutation (CountFrequencies t1) (CountFrequencies t2).
Proof.
  intros Hperm. apply NoDup_Permutation.
  - apply (NoDup_map_inv fst). apply CountFrequencies_wf.
  - apply (NoDup_map_inv fst). apply CountFrequencies_wf.
  - intros [ch c]. rewrite !CountFrequencies_items.
    rewrite (proj1 (Permutation_count_occ N.eq_dec t1 t2) Hperm ch).
    split; intros [Hin Hc]; (split; [| exact Hc]).
    + exact (Permutation_in _ Hperm Hin).
    + exact (Permutation_in _ (Permutation_sym Hperm) Hin).
Qed.

(** X17. The ranked list and the mapping depend on the characters of the
    text and their numbers of occurrences only, not on where they occur:
    two texts that are rearrangements of each other get the same mapping. *)
Theorem mapping_of_rearranged_text (t1 t2 : str) :
  Permutation t1 t2 ->
  SortCharacters (CountFrequencies t1) = SortCharacters (CountFrequencies t2) /\
  BuildMapping (SortCharacters (CountFrequencies t1))
  = BuildMapping (SortCharacters (CountFrequencies t2)).
Proof.
  intros Hperm.
  assert (H : SortCharacters (CountFrequencies t1)
              = SortCharacters (CountFrequencies t2)).
  { apply SortCharacters_perm_eq; [apply CountFrequencies_wf |].
    now apply CountFrequencies_perm. }
  split; [exact H | now rewrite H].
Qed.

Lemma mapping_of_rearranged_text_witness :
  SortCharacters (CountFrequencies (py "abb")) = SortCharacters (CountFrequencies (py "bab")) /\
  BuildMapping (SortCharacters (CountFrequencies (py "abb")))
  = BuildMapping (SortCharacters (CountFrequencies (py "bab"))).
Proof.
  apply mapping_of_rearranged_text.
  apply perm_swap.
Defined.
